(** * better-main: the stack arena and the argument view builder

    A shallow embedding of [src/main.cpp]: the local memory resource
    [my_cust_allocator], the entry point [main] that builds a vector of
    [std::string_view] inside the arena, and the consumer [better_main]
    that prints the arguments.

    The program is embedded in a small state-and-exception monad over a
    [world] holding the two output streams, the character memory that
    [argv] points into, the [string_view] objects living in the arena
    buffer, and the allocator object [pmr_alloc] itself. *)

From Stdlib Require Import ZArith Lia List String Ascii Sorted.
From stdpp Require Import base tactics option list strings functions pretty.

Local Open Scope Z_scope.

(** ** The platform: LP64, two's complement *)

Module Platform.

Definition INT_MAX : Z := 2 ^ 31 - 1.
Definition INT_MIN : Z := - 2 ^ 31.
Definition SIZE_MAX : Z := 2 ^ 64 - 1.
Definition PTRDIFF_MAX : Z := 2 ^ 63 - 1.

Definition is_size_t (z : Z) : Prop := 0 <= z <= SIZE_MAX.

(** Reduction of a mathematical integer to the 32-bit signed range: the
    conversion [size_t -> int] (C++20). Signed arithmetic does not wrap:
    see [int_add] below. *)
Definition int_wrap (z : Z) : Z := (z + 2 ^ 31) mod 2 ^ 32 - 2 ^ 31.

(** Reduction to the 64-bit unsigned range: the conversion
    [int -> size_t] and every [size_t] operation. *)
Definition size_t_wrap (z : Z) : Z := z mod 2 ^ 64.

Definition size_t_sub (a b : Z) : Z := size_t_wrap (a - b).
Definition size_t_mul (a b : Z) : Z := size_t_wrap (a * b).
Definition size_t_add (a b : Z) : Z := size_t_wrap (a + b).
Definition size_t_of_int (i : Z) : Z := size_t_wrap i.
Definition int_of_size_t (n : Z) : Z := int_wrap n.

(** [sizeof(std::string_view)] and [alignof(std::string_view)]: a pointer
    and a length. *)
Definition sizeof_string_view : Z := 16.
Definition alignof_string_view : Z := 8.

End Platform.
Import Platform.

(** ** Data *)

(** [std::string_view]: a pointer and a length, no ownership. *)
Record string_view := { sv_data : Z; sv_len : Z }.

(** [std::span<const std::string_view>]: a pointer and an element count. *)
Record span := { sp_data : Z; sp_size : Z }.

(** The character memory the operating system hands to the process: the
    bytes of the argument strings, laid out from [mem_base] upwards. *)
Record c_memory := { mem_base : Z; mem_bytes : list ascii }.

(** The members of [my_cust_allocator]. *)
Record my_cust_allocator := { buf : Z; buf_size : Z; max_buf_size : Z }.

(** What the program can see and change. [objs] gives the [string_view]
    object constructed at an address, if any; the vector's elements live
    there, inside the arena buffer. *)
Record world := {
  cout : string;
  cerr : string;
  chars : c_memory;
  objs : Z -> option string_view;
  pmr_alloc : my_cust_allocator
}.

Definition with_cout (s : string) (w : world) : world :=
  {| cout := s; cerr := cerr w; chars := chars w; objs := objs w;
     pmr_alloc := pmr_alloc w |}.
Definition with_cerr (s : string) (w : world) : world :=
  {| cout := cout w; cerr := s; chars := chars w; objs := objs w;
     pmr_alloc := pmr_alloc w |}.
Definition with_objs (o : Z -> option string_view) (w : world) : world :=
  {| cout := cout w; cerr := cerr w; chars := chars w; objs := o;
     pmr_alloc := pmr_alloc w |}.
Definition with_pmr_alloc (a : my_cust_allocator) (w : world) : world :=
  {| cout := cout w; cerr := cerr w; chars := chars w; objs := objs w;
     pmr_alloc := a |}.

(** ** The monad: state, C++ exceptions, undefined behaviour *)

Inductive exn := bad_alloc | length_error | bad_array_new_length.

Inductive outcome (A : Type) :=
| Returns (a : A)
| Throws (e : exn)
| Undefined.
Arguments Returns {A} a.
Arguments Throws {A} e.
Arguments Undefined {A}.

Definition M (A : Type) : Type := world -> outcome A * world.

Global Instance M_ret : MRet M := fun A a w => (Returns a, w).
Global Instance M_bind : MBind M := fun A B f m w =>
  match m w with
  | (Returns a, w') => f a w'
  | (Throws e, w') => (Throws e, w')
  | (Undefined, w') => (Undefined, w')
  end.

Definition throw {A} (e : exn) : M A := fun w => (Throws e, w).
Definition undefined {A} : M A := fun w => (Undefined, w).
Definition get : M world := fun w => (Returns w, w).
Definition modify (f : world -> world) : M unit := fun w => (Returns tt, f w).

(** Addition of two [int]s: the behaviour is undefined when the sum is
    not an [int]. *)
Definition int_add (a b : Z) : M Z :=
  if bool_decide (INT_MIN <= a + b <= INT_MAX) then mret (a + b) else undefined.

(** [for (int i = lo; i < hi; i++) s = body(i, s)]: the body runs for
    [lo], [lo + 1], ..., [hi - 1], so [max 0 (hi - lo)] times in all, and
    [i] stays below [hi <= INT_MAX]. *)
Fixpoint for_upto {S : Type} (n : nat) (i : Z) (body : Z -> S -> M S) (s : S)
  : M S :=
  match n with
  | O => mret s
  | Datatypes.S k => s' ← body i s; for_upto k (i + 1) body s'
  end.

Definition for_int {S : Type} (lo hi : Z) (body : Z -> S -> M S) (s : S) : M S :=
  for_upto (Z.to_nat (hi - lo)) lo body s.

(** ** Character memory and streams *)

Definition NUL : ascii := Ascii.zero.
Definition dquote : ascii := ascii_of_nat 34.
Definition space : ascii := ascii_of_nat 32.
Definition newline : ascii := ascii_of_nat 10.

(** The offset of address [p] in the character memory. *)
Definition mem_offset (m : c_memory) (p : Z) : option nat :=
  if p <? mem_base m then None else Some (Z.to_nat (p - mem_base m)).

(** Number of characters before the first [NUL]; [None] when the scan runs
    off the memory. *)
Fixpoint scan_nul (l : list ascii) : option Z :=
  match l with
  | [] => None
  | c :: l' => if Ascii.eqb c NUL then Some 0 else Z.succ <$> scan_nul l'
  end.

(** [std::char_traits<char>::length(p)], that is [strlen]. *)
Definition strlen (m : c_memory) (p : Z) : option Z :=
  off ← mem_offset m p; scan_nul (drop off (mem_bytes m)).

(** The [n] characters at [p], when they all lie in the memory. *)
Definition mem_read (m : c_memory) (p n : Z) : option (list ascii) :=
  off ← mem_offset m p;
  if (0 <=? n) && (Z.of_nat off + n <=? Z.of_nat (length (mem_bytes m)))
  then Some (take (Z.to_nat n) (drop off (mem_bytes m)))
  else None.

(** The characters a view denotes. *)
Definition sv_chars (m : c_memory) (v : string_view) : option (list ascii) :=
  mem_read m (sv_data v) (sv_len v).

(** The [string_view] constructor from a C string. *)
Definition string_view_of_cstr (p : Z) : M string_view := fun w =>
  match strlen (chars w) p with
  | Some n => (Returns {| sv_data := p; sv_len := n |}, w)
  | None => (Undefined, w)
  end.

(** [operator<<] on [std::cout] and [std::cerr]. *)
Definition cout_str (s : string) : M unit :=
  modify (fun w => with_cout (cout w +:+ s) w).
Definition cout_chr (c : ascii) : M unit :=
  cout_str (String c EmptyString).
Definition cout_sv (v : string_view) : M unit := fun w =>
  match sv_chars (chars w) v with
  | Some cs => cout_str (string_of_list_ascii cs) w
  | None => (Undefined, w)
  end.

Definition cerr_str (s : string) : M unit :=
  modify (fun w => with_cerr (cerr w +:+ s) w).
Definition cerr_chr (c : ascii) : M unit :=
  cerr_str (String c EmptyString).
Definition cerr_num (n : Z) : M unit := cerr_str (pretty n).

(** ** The arena: [my_cust_allocator] *)

(** The constructor: [buf(buf), buf_size(buf_size), max_buf_size(buf_size)]. *)
Definition my_cust_allocator_new (b sz : Z) : my_cust_allocator :=
  {| buf := b; buf_size := sz; max_buf_size := sz |}.

(** [do_allocate]: the alignment is ignored, the counter is lowered and the
    start of the buffer is returned. *)
Definition do_allocate (bytes alignment : Z) : M Z :=
  w ← get;
  let a := pmr_alloc w in
  if bool_decide (bytes > buf_size a) then
    cerr_str "requested bytes: ";; cerr_num bytes;;
    cerr_str ", remaining bytes capacity: ";; cerr_num (buf_size a);;
    cerr_chr newline;;
    throw bad_alloc
  else
    modify (with_pmr_alloc
              {| buf := buf a;
                 buf_size := size_t_sub (buf_size a) bytes;
                 max_buf_size := max_buf_size a |});;
    mret (buf a).

(** [do_deallocate] has an empty body. *)
Definition do_deallocate (p bytes alignment : Z) : M unit := mret tt.

(** [do_is_equal] returns [false]. *)
Definition do_is_equal (other : my_cust_allocator) : M bool := mret false.

(** ** The standard library around the arena

    [std::pmr::polymorphic_allocator<std::string_view>] and
    [std::pmr::vector<std::string_view>] are not code of this repository;
    they are written here after libstdc++, as far as [main] drives them. *)

Definition polymorphic_allocate (n : Z) : M Z :=
  if bool_decide (SIZE_MAX / sizeof_string_view < n) then
    throw bad_array_new_length
  else
    do_allocate (size_t_mul n sizeof_string_view) alignof_string_view.

Definition polymorphic_deallocate (p n : Z) : M unit :=
  do_deallocate p (size_t_mul n sizeof_string_view) alignof_string_view.

(** The vector: start of storage (0 is the null pointer), number of
    elements, number of elements the storage holds. *)
Record pmr_vector := { v_data : Z; v_size : Z; v_capacity : Z }.

Definition vector_new : pmr_vector :=
  {| v_data := 0; v_size := 0; v_capacity := 0 |}.

Definition vector_max_size : Z :=
  Z.min (PTRDIFF_MAX / sizeof_string_view) (SIZE_MAX / sizeof_string_view).

(** The address of element [i] of an array of views starting at [base]. *)
Definition elem_addr (base i : Z) : Z := base + i * sizeof_string_view.

Definition construct_at (p : Z) (x : string_view) : M unit :=
  modify (fun w => with_objs (<[p := Some x]> (objs w)) w).

Definition object_at (p : Z) : M string_view := fun w =>
  match objs w p with
  | Some x => (Returns x, w)
  | None => (Undefined, w)
  end.

(** Moves the [n] elements at [src] to [dst], first to last. *)
Definition relocate (n : Z) (src dst : Z) : M unit :=
  for_int 0 n (fun i _ =>
    x ← object_at (elem_addr src i); construct_at (elem_addr dst i) x) tt.

Definition vector_allocate (n : Z) : M Z :=
  if bool_decide (n = 0) then mret 0 else polymorphic_allocate n.

Definition vector_deallocate (p n : Z) : M unit :=
  if bool_decide (p = 0) then mret tt else polymorphic_deallocate p n.

Definition vector_reserve (v : pmr_vector) (n : Z) : M pmr_vector :=
  if bool_decide (n > vector_max_size) then throw length_error
  else if bool_decide (v_capacity v < n) then
    tmp ← vector_allocate n;
    relocate (v_size v) (v_data v) tmp;;
    vector_deallocate (v_data v) (v_capacity v);;
    mret {| v_data := tmp; v_size := v_size v; v_capacity := n |}
  else mret v.

(** The capacity a full vector grows to. *)
Definition vector_check_len (v : pmr_vector) : M Z :=
  if bool_decide (vector_max_size - v_size v < 1) then throw length_error
  else
    let len := size_t_add (v_size v) (Z.max (v_size v) 1) in
    mret (if bool_decide (len < v_size v \/ len > vector_max_size)
          then vector_max_size else len).

Definition vector_emplace_back (v : pmr_vector) (p : Z) : M pmr_vector :=
  if bool_decide (v_size v <> v_capacity v) then
    x ← string_view_of_cstr p;
    construct_at (elem_addr (v_data v) (v_size v)) x;;
    mret {| v_data := v_data v; v_size := v_size v + 1;
            v_capacity := v_capacity v |}
  else
    len ← vector_check_len v;
    tmp ← vector_allocate len;
    x ← string_view_of_cstr p;
    construct_at (elem_addr tmp (v_size v)) x;;
    relocate (v_size v) (v_data v) tmp;;
    vector_deallocate (v_data v) (v_capacity v);;
    mret {| v_data := tmp; v_size := v_size v + 1; v_capacity := len |}.

(** The span over a vector: its [data()] and its [size()]. *)
Definition span_of_vector (v : pmr_vector) : span :=
  {| sp_data := v_data v; sp_size := v_size v |}.

(** [args[idx]] on a span: defined only for [idx < size()]. *)
Definition span_at (s : span) (idx : Z) : M string_view :=
  if bool_decide (idx < sp_size s) then object_at (elem_addr (sp_data s) idx)
  else undefined.

(** ** The program *)

(** The lambda [prn_arg]: the argument between double quotes. *)
Definition prn_arg (arg : string_view) : M unit :=
  cout_chr dquote;; cout_sv arg;; cout_chr dquote.

Definition better_main (args : span) : M Z :=
  cout_str "DEBUG: ";;
  let last_i := int_of_size_t (size_t_sub (sp_size args) 1) in
  for_int 0 last_i (fun i _ =>
    a ← span_at args (size_t_of_int i); prn_arg a;; cout_chr space) tt;;
  a ← span_at args (size_t_of_int last_i);
  prn_arg a;; cout_chr newline;;
  mret 0.

(** [argv[i]]: the array holds one pointer per entry of the list. *)
Definition argv_at (argv : list Z) (i : Z) : M Z := fun w =>
  match argv !! Z.to_nat i with
  | Some p => (Returns p, w)
  | None => (Undefined, w)
  end.

(** The loop body of [main]: [args.emplace_back(argv[i])]. *)
Definition emplace_argv (argv : list Z) (i : Z) (args : pmr_vector)
  : M pmr_vector :=
  p ← argv_at argv i; vector_emplace_back args p.

(** The size of the stack buffer for the [int] [n] that [argc + 1]
    evaluates to: [n] is converted to [size_t] and multiplied by
    [sizeof(std::string_view)]. *)
Definition buffer_bytes (n : Z) : Z :=
  size_t_mul (size_t_of_int n) sizeof_string_view.

(** The capacity of the arena of an invocation with [argc] arguments:
    [(argc + 1) * sizeof(std::string_view)], when [argc + 1] is an [int]. *)
Definition arena_capacity (argc : Z) : Z := buffer_bytes (argc + 1).

(** Lines 27 to 57 of [main]: the diagnostic line, the arena over the
    buffer that [alloca] returned at address [stack_buf], and the vector
    [args] filled from [argv]. *)
Definition build_args (argc : Z) (argv : list Z) (stack_buf : Z)
  : M pmr_vector :=
  cerr_str "DEBUG: argc: ";; cerr_num argc;;
  cerr_str ", sizeof(std::string_view): ";; cerr_num sizeof_string_view;;
  cerr_chr newline;;
  n ← int_add argc 1;
  let buf_size := buffer_bytes n in
  modify (with_pmr_alloc (my_cust_allocator_new stack_buf buf_size));;
  args ← vector_reserve vector_new (size_t_of_int argc);
  for_int 0 argc (emplace_argv argv) args.

Definition main (argc : Z) (argv : list Z) (stack_buf : Z) : M Z :=
  args ← build_args argc argv stack_buf;
  better_main (span_of_vector args).

(** A process image: empty streams, the argument strings in memory, no
    object constructed yet, and the storage of [pmr_alloc] not yet
    initialised. *)
Definition initial_world (m : c_memory) : world :=
  {| cout := EmptyString; cerr := EmptyString; chars := m;
     objs := fun _ => None;
     pmr_alloc := {| buf := 0; buf_size := 0; max_buf_size := 0 |} |}.

Definition result {A} (r : outcome A * world) : outcome A := fst r.
Definition final {A} (r : outcome A * world) : world := snd r.

(** Remaining capacity of the arena in a world. *)
Definition remaining (w : world) : Z := buf_size (pmr_alloc w).

(** ** Running the program on small inputs *)

Definition argv_memory (l : list string) : c_memory :=
  {| mem_base := 4096;
     mem_bytes := concat (map (fun s => list_ascii_of_string s ++ [NUL]) l) |}.

Fixpoint argv_pointers (p : Z) (l : list string) : list Z :=
  match l with
  | [] => []
  | s :: l' => p :: argv_pointers (p + Z.of_nat (String.length s) + 1) l'
  end.

Definition run_main (l : list string) : outcome Z * world :=
  main (Z.of_nat (length l)) (argv_pointers 4096 l) 65536
       (initial_world (argv_memory l)).

(** ** Sequences of arena operations

    A client of the memory resource calls [allocate] and [deallocate] in
    any order and may catch [std::bad_alloc]; [arena_run] drives the arena
    through such a sequence and records, for each call, its outcome and
    the remaining capacity before and after it. *)

Inductive arena_op :=
| Allocate (bytes alignment : Z)
| Deallocate (p bytes alignment : Z).

Record arena_event := {
  ev_op : arena_op;
  ev_result : outcome (option Z);
  ev_before : Z;
  ev_after : Z
}.

Definition arena_call (op : arena_op) : M (option Z) :=
  match op with
  | Allocate bytes alignment => p ← do_allocate bytes alignment; mret (Some p)
  | Deallocate p bytes alignment => do_deallocate p bytes alignment;; mret None
  end.

Fixpoint arena_run (ops : list arena_op) (w : world) : list arena_event * world :=
  match ops with
  | [] => ([], w)
  | op :: ops' =>
      let r := arena_call op w in
      let rest := arena_run ops' (final r) in
      ({| ev_op := op; ev_result := result r;
          ev_before := remaining w; ev_after := remaining (final r) |}
         :: fst rest, snd rest)
  end.

(** The arguments of a call are [size_t] values. *)
Definition op_wf (op : arena_op) : Prop :=
  match op with
  | Allocate bytes alignment => is_size_t bytes /\ is_size_t alignment
  | Deallocate p bytes alignment => is_size_t bytes /\ is_size_t alignment
  end.

(** The bytes a sequence of calls asks for. *)
Fixpoint requested (ops : list arena_op) : Z :=
  match ops with
  | [] => 0
  | Allocate bytes _ :: ops' => bytes + requested ops'
  | Deallocate _ _ _ :: ops' => requested ops'
  end.

(** An event of a call that returned normally. *)
Definition ev_ok (e : arena_event) : Prop :=
  match ev_result e with Returns _ => True | _ => False end.

(** A world whose arena was just constructed over [cap] bytes at [b]. *)
Definition fresh_arena (b cap : Z) (w : world) : world :=
  with_pmr_alloc (my_cust_allocator_new b cap) w.

(** ** Predicates on arena traces *)

(** The invariant of an arena built by the constructor over [cap] bytes
    at [b]: the buffer and the recorded capacity stay, and what remains is
    between 0 and the capacity. *)
Definition arena_inv (b cap : Z) (w : world) : Prop :=
  buf (pmr_alloc w) = b /\ max_buf_size (pmr_alloc w) = cap /\
  0 <= remaining w <= cap.

(** The remaining capacities along a trace, oldest first. *)
Definition capacities (tr : list arena_event) : list Z := map ev_after tr.

(** Every region handed out lies in the buffer. *)
Definition ev_in_bounds (b cap : Z) (e : arena_event) : Prop :=
  match ev_op e, ev_result e with
  | Allocate bytes _, Returns (Some p) => b <= p /\ p + bytes <= b + cap
  | _, _ => True
  end.

(** Every successful allocation returns the start of the buffer. *)
Definition ev_returns (b : Z) (e : arena_event) : Prop :=
  match ev_op e, ev_result e with
  | Allocate _ _, Returns r => r = Some b
  | _, _ => True
  end.

(** ** C strings, spans and the printed line *)

(** [p] points to the characters [s] followed by the terminating [NUL]. *)
Definition cstr_at (m : c_memory) (p : Z) (s : list ascii) : Prop :=
  (NUL ∉ s) /\
  exists off, mem_offset m p = Some off /\
    take (S (length s)) (drop off (mem_bytes m)) = s ++ [NUL].

(** The view that the [string_view] constructor builds over such a string. *)
Definition view_of (p : Z) (s : list ascii) : string_view :=
  {| sv_data := p; sv_len := Z.of_nat (length s) |}.

(** What the spec asks the consumer to print: each argument between double
    quotes, single spaces between arguments. *)
Definition quoted (s : string) : string :=
  String dquote (s +:+ String dquote EmptyString).

Fixpoint args_line (l : list string) : string :=
  match l with
  | [] => EmptyString
  | [s] => quoted s
  | s :: l' => quoted s +:+ String space (args_line l')
  end.

(** What the loop of [better_main] prints: every argument but the last,
    each followed by a space. *)
Fixpoint spaced (l : list string) : string :=
  match l with
  | [] => EmptyString
  | s :: l' => quoted s +:+ String space (spaced l')
  end.

(** The span [sp] ranges over the constructed views [xs], which denote
    the character strings [cs]. *)
Definition span_holds (w : world) (sp : span) (xs : list string_view)
    (cs : list (list ascii)) : Prop :=
  sp_size sp = Z.of_nat (length xs) /\
  (forall (k : nat) x, xs !! k = Some x ->
     objs w (elem_addr (sp_data sp) (Z.of_nat k)) = Some x) /\
  Forall2 (fun x c => sv_chars (chars w) x = Some c) xs cs.

(** ** The worlds [main] goes through *)

(** The objects after the views [xs] were constructed at the elements
    [i], [i + 1], ... of the array at [base]. *)
Fixpoint store_views (base i : Z) (xs : list string_view)
    (o : Z -> option string_view) : Z -> option string_view :=
  match xs with
  | [] => o
  | x :: xs' => store_views base (i + 1) xs' (<[elem_addr base i := Some x]> o)
  end.

(** The diagnostic line that [main] writes first. *)
Definition startup_line (argc : Z) : string :=
  "DEBUG: argc: " +:+ pretty argc +:+ ", sizeof(std::string_view): "
    +:+ pretty sizeof_string_view +:+ String newline EmptyString.

(** The world in which [main] calls [better_main]. *)
Definition built_world (argc : Z) (argv : list Z) (ss : list (list ascii))
    (stk : Z) (w : world) : world :=
  {| cout := cout w;
     cerr := cerr w +:+ startup_line argc;
     chars := chars w;
     objs := store_views stk 0 (zip_with view_of argv ss) (objs w);
     pmr_alloc := {| buf := stk;
                     buf_size := arena_capacity argc - 16 * argc;
                     max_buf_size := arena_capacity argc |} |}.

(** The world in which the vector is built: the diagnostic line is
    written and the arena is constructed over the stack buffer. *)
Definition arena_world (argc stk : Z) (w : world) : world :=
  with_pmr_alloc (my_cust_allocator_new stk (arena_capacity argc))
    (with_cerr (cerr w +:+ startup_line argc) w).

(** ** Runs without exceptions *)

(** The run [r] did not throw, and if it returned, [Q] holds of the value
    and the world it returned. *)
Definition ensures {A} (r : outcome A * world) (Q : A -> world -> Prop) : Prop :=
  match r with
  | (Returns a, w') => Q a w'
  | (Throws _, _) => False
  | (Undefined, _) => True
  end.

(** ** Sample process images *)

(** An arena of 32 bytes at address 65536, in a process without
    arguments. *)
Definition arena32 : world := fresh_arena 65536 32 (initial_world (argv_memory [])).

(** A world in which every address holds a view of the empty string, and
    a span of [2 ^ 31 + 1] elements in it. *)
Definition wide_world : world :=
  {| cout := EmptyString; cerr := EmptyString;
     chars := {| mem_base := 4096; mem_bytes := [NUL] |};
     objs := fun _ => Some {| sv_data := 4096; sv_len := 0 |};
     pmr_alloc := my_cust_allocator_new 65536 0 |}.

Definition wide_span : span := {| sp_data := 65536; sp_size := 2 ^ 31 + 1 |}.

(** The process image of the invocation [prog hello world]. *)
Definition demo_world : world :=
  initial_world (argv_memory ["prog"; "hello"; "world"]).
Definition demo_argv : list Z := argv_pointers 4096 ["prog"; "hello"; "world"].
Definition demo_args : list (list ascii) :=
  map list_ascii_of_string ["prog"; "hello"; "world"].

(** The process image of the invocation [prog]. *)
Definition solo_world : world := initial_world (argv_memory ["prog"]).

(** ** Accounting, frames and diagnostics *)

(** The bytes that the successful allocations of a trace handed out. *)
Fixpoint granted (tr : list arena_event) : Z :=
  match tr with
  | [] => 0
  | e :: tr' =>
      match ev_op e, ev_result e with
      | Allocate bytes _, Returns _ => bytes
      | _, _ => 0
      end + granted tr'
  end.

(** An allocation of [n] bytes or more was refused. *)
Definition ev_refused (n : Z) (e : arena_event) : Prop :=
  match ev_op e with
  | Allocate m _ => n <= m -> ev_result e = Throws bad_alloc
  | Deallocate _ _ _ => True
  end.

(** The line [do_allocate] writes to [std::cerr] before it throws. *)
Definition diagnostic_line (bytes rem : Z) : string :=
  "requested bytes: " +:+ pretty bytes +:+ ", remaining bytes capacity: "
    +:+ pretty rem +:+ String newline EmptyString.

(** [w'] is [w] with more text on [std::cout] and nothing else changed. *)
Definition cout_extends (w w' : world) : Prop :=
  cerr w' = cerr w /\ chars w' = chars w /\ objs w' = objs w /\
  pmr_alloc w' = pmr_alloc w /\ exists s, cout w' = cout w +:+ s.

(** The run returned 0 or ran into undefined behaviour; it did not throw. *)
Definition returns_zero (r : outcome Z * world) : Prop :=
  ensures r (fun status _ => status = 0).

(** * Properties *)

(** ** The monad *)

Lemma bind_returns {A B} (m : M A) (f : A -> M B) w a w' :
  m w = (Returns a, w') -> (m ≫= f) w = f a w'.
Proof. intros H. unfold mbind, M_bind. by rewrite H. Qed.

Lemma bind_throws {A B} (m : M A) (f : A -> M B) w e w' :
  m w = (Throws e, w') -> (m ≫= f) w = (Throws e, w').
Proof. intros H. unfold mbind, M_bind. by rewrite H. Qed.

Lemma bind_undefined {A B} (m : M A) (f : A -> M B) w w' :
  m w = (Undefined, w') -> (m ≫= f) w = (Undefined, w').
Proof. intros H. unfold mbind, M_bind. by rewrite H. Qed.

(** ** The arena *)

Lemma size_t_sub_exact a b : is_size_t a -> 0 <= b <= a -> size_t_sub a b = a - b.
Proof.
  unfold is_size_t, SIZE_MAX, size_t_sub, size_t_wrap. intros Ha Hb.
  apply Z.mod_small. lia.
Qed.

(** The failing branch: a diagnostic on [std::cerr], then [std::bad_alloc]. *)
Lemma do_allocate_fails bytes alignment w :
  bytes > remaining w ->
  do_allocate bytes alignment w =
    (Throws bad_alloc,
     with_cerr (((((cerr w +:+ "requested bytes: ") +:+ pretty bytes)
                   +:+ ", remaining bytes capacity: ")
                   +:+ pretty (remaining w)) +:+ String newline EmptyString) w).
Proof.
  intros H. unfold do_allocate, remaining in *.
  unfold mbind at 1, M_bind, get. rewrite bool_decide_eq_true_2 by done.
  reflexivity.
Qed.

(** The succeeding branch. *)
Lemma do_allocate_succeeds bytes alignment w :
  bytes <= remaining w ->
  do_allocate bytes alignment w =
    (Returns (buf (pmr_alloc w)),
     with_pmr_alloc {| buf := buf (pmr_alloc w);
                       buf_size := size_t_sub (remaining w) bytes;
                       max_buf_size := max_buf_size (pmr_alloc w) |} w).
Proof.
  intros H. unfold do_allocate, remaining in *.
  unfold mbind at 1, M_bind, get. rewrite bool_decide_eq_false_2 by lia.
  reflexivity.
Qed.

Lemma fresh_arena_inv b cap w : 0 <= cap -> arena_inv b cap (fresh_arena b cap w).
Proof. intros H. unfold arena_inv, remaining. simpl. lia. Qed.

Lemma arena_call_allocate bytes alignment w :
  arena_call (Allocate bytes alignment) w =
    if bool_decide (bytes > remaining w)
    then (Throws bad_alloc, final (do_allocate bytes alignment w))
    else (Returns (Some (buf (pmr_alloc w))),
          final (do_allocate bytes alignment w)).
Proof.
  simpl. case_bool_decide as H.
  - rewrite (bind_throws _ _ _ _ _ (do_allocate_fails _ alignment _ H)).
    by rewrite do_allocate_fails.
  - assert (H' : bytes <= remaining w) by lia.
    rewrite (bind_returns _ _ _ _ _ (do_allocate_succeeds _ alignment _ H')).
    by rewrite do_allocate_succeeds.
Qed.

Lemma arena_call_step b cap op w :
  is_size_t cap -> op_wf op -> arena_inv b cap w ->
  arena_inv b cap (final (arena_call op w)) /\
  remaining (final (arena_call op w)) <= remaining w.
Proof.
  intros Hcap Hop (Hb & Hm & Hr). destruct op as [bytes al | p bytes al].
  - rewrite arena_call_allocate. destruct Hop as [[Hn _] _].
    case_bool_decide as H.
    + rewrite do_allocate_fails by done. unfold arena_inv, remaining in *.
      simpl. lia.
    + rewrite do_allocate_succeeds by lia. unfold arena_inv, remaining in *.
      simpl. rewrite size_t_sub_exact; [lia | | lia].
      unfold is_size_t in *. lia.
  - simpl. unfold arena_inv. lia.
Qed.

Lemma arena_run_inv b cap ops : forall w,
  is_size_t cap -> Forall op_wf ops -> arena_inv b cap w ->
  arena_inv b cap (snd (arena_run ops w)) /\
  Forall (fun c => c <= remaining w) (capacities (fst (arena_run ops w))).
Proof.
  induction ops as [| op ops IH]; intros w Hcap Hops Hinv.
  - simpl. split; [done | constructor].
  - apply Forall_cons_1 in Hops as [Hop Hops].
    destruct (arena_call_step b cap op w Hcap Hop Hinv) as [Hinv' Hle].
    destruct (IH _ Hcap Hops Hinv') as [Hfin Hall].
    simpl. split; [done |]. constructor; [done |].
    eapply Forall_impl; [exact Hall |]. simpl. intros c Hc. lia.
Qed.

Lemma arena_run_sorted b cap ops : forall w,
  is_size_t cap -> Forall op_wf ops -> arena_inv b cap w ->
  StronglySorted Z.ge (remaining w :: capacities (fst (arena_run ops w))).
Proof.
  induction ops as [| op ops IH]; intros w Hcap Hops Hinv.
  - simpl. repeat constructor.
  - pose proof (arena_run_inv b cap (op :: ops) w Hcap Hops Hinv) as [_ Hall].
    apply Forall_cons_1 in Hops as [Hop Hops].
    destruct (arena_call_step b cap op w Hcap Hop Hinv) as [Hinv' Hle].
    constructor.
    + exact (IH _ Hcap Hops Hinv').
    + eapply Forall_impl; [exact Hall |]. simpl. intros c Hc. lia.
Qed.

Lemma arena_run_in_bounds b cap ops : forall w,
  is_size_t cap -> Forall op_wf ops -> arena_inv b cap w ->
  Forall (ev_in_bounds b cap) (fst (arena_run ops w)).
Proof.
  induction ops as [| op ops IH]; intros w Hcap Hops Hinv; [constructor |].
  apply Forall_cons_1 in Hops as [Hop Hops].
  destruct (arena_call_step b cap op w Hcap Hop Hinv) as [Hinv' Hle].
  simpl. constructor; [| exact (IH _ Hcap Hops Hinv')].
  unfold ev_in_bounds. simpl. destruct op as [bytes al | p bytes al]; [| done].
  rewrite arena_call_allocate. destruct Hinv as (Hb & Hm & Hr).
  case_bool_decide as H; simpl; [done |]. lia.
Qed.

Lemma requested_nonneg ops : Forall op_wf ops -> 0 <= requested ops.
Proof.
  induction 1 as [| [n al | p n al] ops Hop _ IH]; simpl; [lia | | done].
  destruct Hop as [[Hn _] _]. lia.
Qed.

Lemma remaining_after_allocate bytes alignment w :
  is_size_t (remaining w) -> 0 <= bytes <= remaining w ->
  remaining (final (do_allocate bytes alignment w)) = remaining w - bytes.
Proof.
  intros Hr Hb. rewrite do_allocate_succeeds by lia.
  unfold remaining at 1. simpl. by apply size_t_sub_exact.
Qed.

(** Allocations that fit all succeed. *)
Lemma arena_run_fits b cap ops : forall w,
  is_size_t cap -> Forall op_wf ops -> arena_inv b cap w ->
  requested ops <= remaining w ->
  Forall ev_ok (fst (arena_run ops w)).
Proof.
  induction ops as [| op ops IH]; intros w Hcap Hops Hinv Hfit; [constructor |].
  apply Forall_cons_1 in Hops as [Hop Hops].
  destruct (arena_call_step b cap op w Hcap Hop Hinv) as [Hinv' Hle].
  pose proof (requested_nonneg ops Hops) as Hreq.
  simpl. constructor.
  - unfold ev_ok. simpl. destruct op as [bytes al | p bytes al]; [| done].
    simpl in Hfit. rewrite arena_call_allocate.
    rewrite bool_decide_eq_false_2 by lia. done.
  - apply (IH _ Hcap Hops Hinv').
    destruct op as [bytes al | p bytes al]; [| done].
    simpl in Hfit. destruct Hop as [[Hn _] _]. destruct Hinv as (_ & _ & Hr).
    rewrite arena_call_allocate. rewrite bool_decide_eq_false_2 by lia.
    unfold final at 1. simpl. rewrite remaining_after_allocate; [lia | | lia].
    unfold is_size_t in *. lia.
Qed.

Lemma arena_call_keeps_buf op w :
  buf (pmr_alloc (final (arena_call op w))) = buf (pmr_alloc w).
Proof.
  destruct op as [bytes al | p bytes al]; [| done].
  rewrite arena_call_allocate.
  case_bool_decide as H.
  - by rewrite do_allocate_fails.
  - by rewrite do_allocate_succeeds by lia.
Qed.

Lemma arena_run_returns ops : forall w,
  Forall (ev_returns (buf (pmr_alloc w))) (fst (arena_run ops w)).
Proof.
  induction ops as [| op ops IH]; intros w; [constructor |].
  simpl. constructor.
  - unfold ev_returns. simpl. destruct op as [bytes al | p bytes al]; [| done].
    rewrite arena_call_allocate. by case_bool_decide.
  - specialize (IH (final (arena_call op w))).
    by rewrite arena_call_keeps_buf in IH.
Qed.

(** ** Claims about the arena *)

Lemma is_size_t_small z : 0 <= z <= 2 ^ 32 -> is_size_t z.
Proof. unfold is_size_t, SIZE_MAX. lia. Qed.

(** C1. In every arena state, a request larger than the remaining capacity
    throws [std::bad_alloc] (the out-of-capacity error) and leaves the
    remaining capacity, indeed the whole allocator object, as it was; and
    from a freshly constructed arena every sequence of calls whose
    allocations add up to at most the capacity returns normally at each
    call. *)
Theorem allocate_fails_iff_out_of_capacity :
  forall (w : world) (bytes alignment : Z),
    (bytes > remaining w ->
       result (do_allocate bytes alignment w) = Throws bad_alloc /\
       remaining (final (do_allocate bytes alignment w)) = remaining w /\
       pmr_alloc (final (do_allocate bytes alignment w)) = pmr_alloc w) /\
    (forall (b cap : Z) (ops : list arena_op),
       is_size_t cap -> Forall op_wf ops -> requested ops <= cap ->
       Forall ev_ok (fst (arena_run ops (fresh_arena b cap w)))).
Proof.
  intros w bytes alignment. split.
  - intros H. by rewrite do_allocate_fails.
  - intros b cap ops Hcap Hops Hfit.
    apply (arena_run_fits b cap); try done.
    apply fresh_arena_inv. unfold is_size_t in Hcap. lia.
Qed.

Lemma allocate_fails_iff_out_of_capacity_witness :
  48 > remaining arena32 /\
  result (do_allocate 48 8 arena32) = Throws bad_alloc /\
  remaining (final (do_allocate 48 8 arena32)) = 32 /\
  Forall ev_ok
    (fst (arena_run [Allocate 16 8; Deallocate 65536 16 8; Allocate 16 8]
            (fresh_arena 65536 32 arena32))).
Proof.
  pose proof (allocate_fails_iff_out_of_capacity arena32 48 8) as [Hfail Hfit].
  assert (H : 48 > remaining arena32) by (vm_compute; reflexivity).
  destruct (Hfail H) as (Hthrows & Hrem & _).
  split; [exact H |]. split; [exact Hthrows |]. split; [exact Hrem |].
  apply Hfit.
  - apply is_size_t_small. lia.
  - repeat constructor; simpl; unfold SIZE_MAX; lia.
  - simpl. lia.
Defined.

(** C4. After a successful [allocate(size, alignment)] the remaining
    capacity is the remaining capacity before the call minus [size]. *)
Theorem allocate_decrements_remaining :
  forall (w w' : world) (bytes alignment p : Z),
    is_size_t (remaining w) -> is_size_t bytes ->
    do_allocate bytes alignment w = (Returns p, w') ->
    remaining w' = remaining w - bytes.
Proof.
  intros w w' bytes alignment p Hr Hb Hrun.
  destruct (decide (bytes > remaining w)) as [Hgt | Hle].
  - rewrite do_allocate_fails in Hrun by done. discriminate.
  - pose proof (remaining_after_allocate bytes alignment w Hr) as Heq.
    rewrite Hrun in Heq. apply Heq. unfold is_size_t in Hb. lia.
Qed.

Lemma allocate_decrements_remaining_witness :
  remaining (final (do_allocate 24 8 arena32)) = remaining arena32 - 24.
Proof.
  apply (allocate_decrements_remaining arena32 _ 24 8 65536).
  - apply is_size_t_small. vm_compute. split; discriminate.
  - apply is_size_t_small. lia.
  - reflexivity.
Defined.

(** C5. Every successful allocation returns the start of the buffer the
    arena was constructed over: in any state a successful call returns
    [buf] and leaves [buf] as it was, so that along every sequence of
    calls each successful allocation returns that same pointer, although
    the remaining capacity is lowered each time. *)
Theorem allocate_returns_base_pointer :
  forall (w w' : world) (bytes alignment p : Z) (ops : list arena_op),
    (do_allocate bytes alignment w = (Returns p, w') ->
     p = buf (pmr_alloc w) /\ buf (pmr_alloc w') = buf (pmr_alloc w)) /\
    Forall (ev_returns (buf (pmr_alloc w))) (fst (arena_run ops w)).
Proof.
  intros w w' bytes alignment p ops. split.
  - intros Hrun. destruct (decide (bytes > remaining w)) as [Hgt | Hle].
    + rewrite do_allocate_fails in Hrun by done. discriminate.
    + rewrite do_allocate_succeeds in Hrun by lia.
      injection Hrun as <- <-. done.
  - exact (arena_run_returns ops w).
Qed.

Lemma allocate_returns_base_pointer_witness :
  65536 = buf (pmr_alloc arena32) /\
  Forall (ev_returns 65536)
    (fst (arena_run [Allocate 16 8; Allocate 16 8; Allocate 16 8] arena32)) /\
  capacities (fst (arena_run [Allocate 16 8; Allocate 16 8; Allocate 16 8]
                     arena32)) = [16; 0; 0].
Proof.
  destruct (allocate_returns_base_pointer arena32
              (final (do_allocate 16 8 arena32)) 16 8 65536
              [Allocate 16 8; Allocate 16 8; Allocate 16 8]) as [Hcall Hrun].
  split; [apply Hcall; reflexivity |]. split; [exact Hrun | reflexivity].
Defined.

(** C7. [deallocate(ptr, size, alignment)] returns and leaves the whole
    world, the arena's remaining capacity included, exactly as it was. *)
Theorem deallocate_is_noop :
  forall (w : world) (p bytes alignment : Z),
    do_deallocate p bytes alignment w = (Returns tt, w) /\
    remaining (final (do_deallocate p bytes alignment w)) = remaining w /\
    pmr_alloc (final (arena_call (Deallocate p bytes alignment) w)) = pmr_alloc w.
Proof. intros w p bytes alignment. repeat split. Qed.

(** C8. Along every sequence of allocations and deallocations on a fresh
    arena the remaining capacity never grows, and every region
    [[p, p + size)] that a successful allocation returns lies within the
    buffer [[b, b + cap)]. *)
Theorem arena_monotone_and_in_bounds :
  forall (w : world) (b cap : Z) (ops : list arena_op),
    is_size_t cap -> Forall op_wf ops ->
    StronglySorted Z.ge
      (cap :: capacities (fst (arena_run ops (fresh_arena b cap w)))) /\
    Forall (fun e => ev_after e <= ev_before e)
      (fst (arena_run ops (fresh_arena b cap w))) /\
    Forall (ev_in_bounds b cap) (fst (arena_run ops (fresh_arena b cap w))).
Proof.
  intros w b cap ops Hcap Hops.
  assert (Hinv : arena_inv b cap (fresh_arena b cap w)).
  { apply fresh_arena_inv. unfold is_size_t in Hcap. lia. }
  split; [| split].
  - exact (arena_run_sorted b cap ops _ Hcap Hops Hinv).
  - clear -Hcap Hops Hinv. revert Hops Hinv. generalize (fresh_arena b cap w).
    induction ops as [| op ops IH]; intros w0 Hops Hinv; [constructor |].
    apply Forall_cons_1 in Hops as [Hop Hops].
    destruct (arena_call_step b cap op w0 Hcap Hop Hinv) as [Hinv' Hle].
    simpl. constructor; [exact Hle | exact (IH _ Hops Hinv')].
  - exact (arena_run_in_bounds b cap ops _ Hcap Hops Hinv).
Qed.

Lemma arena_monotone_and_in_bounds_witness :
  capacities
    (fst (arena_run [Allocate 16 8; Allocate 24 8; Deallocate 65536 16 8;
                     Allocate 8 8]
            (fresh_arena 65536 32 arena32))) = [16; 16; 16; 8] /\
  Forall (ev_in_bounds 65536 32)
    (fst (arena_run [Allocate 16 8; Allocate 24 8; Deallocate 65536 16 8;
                     Allocate 8 8]
            (fresh_arena 65536 32 arena32))).
Proof.
  split; [reflexivity |].
  apply (arena_monotone_and_in_bounds arena32 65536 32).
  - apply is_size_t_small. lia.
  - repeat constructor; simpl; unfold SIZE_MAX; lia.
Defined.

(** ** Strings and C strings *)

Lemma append_cons (x : ascii) (a b : string) :
  String x a +:+ b = String x (a +:+ b).
Proof. reflexivity. Qed.

Lemma append_assoc (a b c : string) : (a +:+ b) +:+ c = a +:+ (b +:+ c).
Proof.
  induction a as [| x a IH]; [done |]. rewrite !append_cons. by rewrite IH.
Qed.

Lemma append_nil_r (a : string) : a +:+ EmptyString = a.
Proof. induction a as [| x a IH]; [done |]. rewrite append_cons. by rewrite IH. Qed.

Lemma scan_nul_app (s rest : list ascii) :
  NUL ∉ s -> scan_nul (s ++ NUL :: rest) = Some (Z.of_nat (length s)).
Proof.
  induction s as [| c s IH]; intros Hnul; simpl; [done |].
  apply not_elem_of_cons in Hnul as [Hc Hs].
  destruct (Ascii.eqb c NUL) eqn:E.
  - apply Ascii.eqb_eq in E. congruence.
  - rewrite (IH Hs). simpl. f_equal. lia.
Qed.

Lemma cstr_at_drop m p s :
  cstr_at m p s ->
  exists off rest, mem_offset m p = Some off /\
    drop off (mem_bytes m) = s ++ NUL :: rest.
Proof.
  intros (_ & off & Hoff & Htake). exists off, (drop (S (length s)) (drop off (mem_bytes m))).
  split; [done |].
  rewrite <- (take_drop (S (length s)) (drop off (mem_bytes m))) at 1.
  rewrite Htake. by rewrite <- app_assoc.
Qed.

Lemma cstr_at_strlen m p s :
  cstr_at m p s -> strlen m p = Some (Z.of_nat (length s)).
Proof.
  intros H. destruct (cstr_at_drop m p s H) as (off & rest & Hoff & Hdrop).
  unfold strlen. rewrite Hoff. simpl. rewrite Hdrop.
  apply scan_nul_app. apply H.
Qed.

Lemma cstr_at_read m p s :
  cstr_at m p s -> sv_chars m (view_of p s) = Some s.
Proof.
  intros H. destruct (cstr_at_drop m p s H) as (off & rest & Hoff & Hdrop).
  unfold sv_chars, mem_read. simpl. rewrite Hoff. simpl.
  assert (Hlen : (off + length s < length (mem_bytes m))%nat).
  { pose proof (f_equal length Hdrop) as Hl.
    rewrite length_drop, length_app in Hl. simpl in Hl. lia. }
  rewrite andb_true_intro.
  - rewrite Nat2Z.id, Hdrop. f_equal. by rewrite take_app_length.
  - split; [apply Z.leb_le; lia | apply Z.leb_le; lia].
Qed.

Lemma string_view_of_cstr_spec p s w :
  cstr_at (chars w) p s ->
  string_view_of_cstr p w = (Returns (view_of p s), w).
Proof.
  intros H. unfold string_view_of_cstr. by rewrite (cstr_at_strlen _ _ _ H).
Qed.

(** ** Building the argument vector *)

Lemma with_objs_id w : with_objs (objs w) w = w.
Proof. by destruct w. Qed.

Lemma elem_addr_inj base i j : elem_addr base i = elem_addr base j -> i = j.
Proof. unfold elem_addr, sizeof_string_view. lia. Qed.

Lemma store_views_other base xs : forall i o a,
  (forall j, i <= j -> a <> elem_addr base j) ->
  store_views base i xs o a = o a.
Proof.
  induction xs as [| x xs IH]; intros i o a Ha; simpl; [done |].
  rewrite IH by (intros j Hj; apply Ha; lia).
  apply fn_lookup_insert_ne. intros E. by apply (Ha i).
Qed.

Lemma store_views_lookup base xs : forall i o (k : nat) x,
  xs !! k = Some x ->
  store_views base i xs o (elem_addr base (i + Z.of_nat k)) = Some x.
Proof.
  induction xs as [| y xs IH]; intros i o k x Hk; [done |].
  destruct k as [| k]; simpl in *.
  - injection Hk as ->. rewrite Z.add_0_r.
    rewrite store_views_other.
    + apply fn_lookup_insert.
    + intros j Hj E. apply elem_addr_inj in E. lia.
  - replace (i + Z.of_nat (S k)) with ((i + 1) + Z.of_nat k) by lia.
    by apply (IH (i + 1)).
Qed.

Lemma emplace_back_room v p s w :
  v_size v <> v_capacity v -> cstr_at (chars w) p s ->
  vector_emplace_back v p w =
    (Returns {| v_data := v_data v; v_size := v_size v + 1;
                v_capacity := v_capacity v |},
     with_objs (<[elem_addr (v_data v) (v_size v) := Some (view_of p s)]> (objs w)) w).
Proof.
  intros Hroom Hs. unfold vector_emplace_back.
  rewrite bool_decide_eq_true_2 by done.
  by rewrite (bind_returns _ _ _ _ _ (string_view_of_cstr_spec p s w Hs)).
Qed.

Lemma argv_at_drop argv i p rest w :
  0 <= i -> drop (Z.to_nat i) argv = p :: rest ->
  argv_at argv i w = (Returns p, w) /\ drop (Z.to_nat (i + 1)) argv = rest.
Proof.
  intros Hi Hdrop. split.
  - unfold argv_at.
    assert (H : argv !! Z.to_nat i = Some p); [| by rewrite H].
    rewrite <- (Nat.add_0_r (Z.to_nat i)), <- lookup_drop. by rewrite Hdrop.
  - replace (Z.to_nat (i + 1)) with (Z.to_nat i + 1)%nat by lia.
    rewrite <- drop_drop. by rewrite Hdrop.
Qed.

(** The loop of [main] from index [i] on, as long as the storage has room
    for the arguments that are left. *)
Lemma emplace_loop argv todo : forall ss i v w,
  0 <= i -> drop (Z.to_nat i) argv = todo ->
  Forall2 (cstr_at (chars w)) todo ss ->
  v_size v = i -> i + Z.of_nat (length todo) <= v_capacity v ->
  for_upto (length todo) i (emplace_argv argv) v w =
    (Returns {| v_data := v_data v; v_size := i + Z.of_nat (length todo);
                v_capacity := v_capacity v |},
     with_objs (store_views (v_data v) i (zip_with view_of todo ss) (objs w)) w).
Proof.
  induction todo as [| p todo IH]; intros ss i v w Hi Hdrop Hss Hsz Hcap.
  - simpl. rewrite Z.add_0_r, with_objs_id. destruct v; simpl in *. by subst.
  - destruct ss as [| s ss]; [by apply Forall2_length in Hss |].
    apply Forall2_cons in Hss as [Hs Hss].
    destruct (argv_at_drop argv i p todo w Hi Hdrop) as [Hat Hdrop'].
    simpl length in *. simpl for_upto.
    assert (Hstep : emplace_argv argv i v w =
              (Returns {| v_data := v_data v; v_size := i + 1;
                          v_capacity := v_capacity v |},
               with_objs (<[elem_addr (v_data v) i := Some (view_of p s)]> (objs w)) w)).
    { unfold emplace_argv. rewrite (bind_returns _ _ _ _ _ Hat).
      rewrite (emplace_back_room v p s w); [by rewrite Hsz | lia | done]. }
    rewrite (bind_returns _ _ _ _ _ Hstep).
    rewrite (IH ss); simpl; try done; try lia.
    do 2 f_equal. f_equal. lia.
Qed.

(** ** Sizing the arena *)

Lemma size_t_of_int_nonneg argc : 0 <= argc <= INT_MAX -> size_t_of_int argc = argc.
Proof.
  unfold INT_MAX, size_t_of_int, size_t_wrap. intros H. apply Z.mod_small. lia.
Qed.

Lemma size_t_mul_small n :
  0 <= n <= INT_MAX -> size_t_mul n sizeof_string_view = 16 * n.
Proof.
  unfold INT_MAX, size_t_mul, size_t_wrap, sizeof_string_view. intros H.
  rewrite Z.mod_small; lia.
Qed.

(** The stack buffer has room for one record more than [argc]. *)
Lemma arena_capacity_val argc :
  0 <= argc <= INT_MAX -> arena_capacity argc = 16 * (argc + 1).
Proof.
  intros H.
  unfold arena_capacity, buffer_bytes, size_t_of_int, size_t_mul,
    size_t_wrap, sizeof_string_view, INT_MAX in *.
  rewrite (Z.mod_small (argc + 1)) by lia.
  rewrite Z.mod_small; lia.
Qed.

Lemma arena_capacity_fits argc :
  0 <= argc <= INT_MAX ->
  16 * argc + 16 <= arena_capacity argc <= SIZE_MAX.
Proof.
  intros H. rewrite arena_capacity_val by done.
  unfold INT_MAX, SIZE_MAX in *. lia.
Qed.

(** [argc + 1] is an [int] for every count below [INT_MAX], and is not
    at [INT_MAX]. *)
Lemma int_add_one argc w :
  0 <= argc < INT_MAX -> int_add argc 1 w = (Returns (argc + 1), w).
Proof.
  intros H. unfold int_add.
  by rewrite bool_decide_eq_true_2 by (unfold INT_MIN, INT_MAX in *; lia).
Qed.

Lemma int_add_one_overflows w : int_add INT_MAX 1 w = (Undefined, w).
Proof. reflexivity. Qed.

Lemma vector_max_size_val : vector_max_size = 2 ^ 59 - 1.
Proof. reflexivity. Qed.

(** [args.reserve(argc)] on the empty vector and the fresh arena: one
    allocation of [argc] records, at the start of the buffer. *)
Lemma reserve_fresh argc stk w :
  1 <= argc <= INT_MAX ->
  pmr_alloc w = my_cust_allocator_new stk (arena_capacity argc) ->
  vector_reserve vector_new (size_t_of_int argc) w =
    (Returns {| v_data := stk; v_size := 0; v_capacity := argc |},
     with_pmr_alloc {| buf := stk;
                       buf_size := arena_capacity argc - 16 * argc;
                       max_buf_size := arena_capacity argc |} w).
Proof.
  intros Hargc Harena.
  pose proof (arena_capacity_fits argc ltac:(lia)) as Hfit.
  assert (Hrem : remaining w = arena_capacity argc).
  { unfold remaining. by rewrite Harena. }
  rewrite size_t_of_int_nonneg by lia.
  unfold vector_reserve. rewrite vector_max_size_val.
  rewrite bool_decide_eq_false_2 by (unfold INT_MAX in *; lia).
  rewrite bool_decide_eq_true_2 by (simpl; lia).
  assert (Halloc : vector_allocate argc w =
            (Returns stk,
             with_pmr_alloc {| buf := stk;
                               buf_size := arena_capacity argc - 16 * argc;
                               max_buf_size := arena_capacity argc |} w)).
  { unfold vector_allocate, polymorphic_allocate.
    rewrite bool_decide_eq_false_2 by lia.
    rewrite bool_decide_eq_false_2
      by (unfold SIZE_MAX, sizeof_string_view, INT_MAX in *;
          change ((2 ^ 64 - 1) / 16) with (2 ^ 60 - 1); lia).
    rewrite size_t_mul_small by lia.
    rewrite do_allocate_succeeds by lia.
    rewrite Hrem, Harena. simpl.
    rewrite size_t_sub_exact; [done | | lia].
    unfold is_size_t. lia. }
  rewrite (bind_returns _ _ _ _ _ Halloc). reflexivity.
Qed.

Lemma build_args_unfold argc argv stk w :
  0 <= argc < INT_MAX ->
  build_args argc argv stk w =
    (args ← vector_reserve vector_new (size_t_of_int argc);
     for_int 0 argc (emplace_argv argv) args) (arena_world argc stk w).
Proof.
  intros Hargc. unfold build_args, arena_world, startup_line.
  unfold mbind at 1 2 3 4 5, M_bind at 1 2 3 4 5.
  unfold cerr_num, cerr_chr, cerr_str, modify. simpl.
  rewrite (bind_returns _ _ _ _ _ (int_add_one argc _ Hargc)).
  unfold mbind at 1, M_bind at 1, modify. simpl.
  rewrite !append_assoc. reflexivity.
Qed.

(** At [INT_MAX] the run ends in the overflow of [argc + 1], after the
    diagnostic line. *)
Lemma build_args_overflow argv stk w :
  result (build_args INT_MAX argv stk w) = Undefined.
Proof. reflexivity. Qed.

Lemma build_args_spec argc argv ss stk w :
  1 <= argc < INT_MAX -> Z.of_nat (length argv) = argc ->
  Forall2 (cstr_at (chars w)) argv ss ->
  build_args argc argv stk w =
    (Returns {| v_data := stk; v_size := argc; v_capacity := argc |},
     built_world argc argv ss stk w).
Proof.
  intros Hargc Hlen Hss. rewrite build_args_unfold by lia.
  rewrite (bind_returns _ _ _ _ _
             (reserve_fresh argc stk (arena_world argc stk w)
                ltac:(lia) eq_refl)).
  unfold for_int. rewrite Z.sub_0_r. subst argc. rewrite Nat2Z.id.
  rewrite (emplace_loop argv argv ss 0); simpl; try done; try lia.
Qed.

(** ** Printing the arguments *)

Lemma args_line_snoc pre s : args_line (pre ++ [s]) = spaced pre +:+ quoted s.
Proof.
  induction pre as [| a pre IH]; [done |].
  change ((a :: pre) ++ [s]) with (a :: (pre ++ [s])).
  destruct (pre ++ [s]) as [| b l] eqn:E; [by destruct pre |].
  change (args_line (a :: b :: l)) with (quoted a +:+ String space (args_line (b :: l))).
  rewrite IH. simpl spaced. rewrite append_assoc. by rewrite append_cons.
Qed.

Lemma prn_arg_spec x c w :
  sv_chars (chars w) x = Some c ->
  prn_arg x w =
    (Returns tt, with_cout (cout w +:+ quoted (string_of_list_ascii c)) w).
Proof.
  intros H. unfold prn_arg, cout_chr, cout_sv, cout_str, modify, mbind, M_bind.
  simpl. rewrite H. simpl. unfold with_cout. simpl. do 2 f_equal.
  unfold quoted. rewrite !append_assoc. reflexivity.
Qed.

Lemma span_at_spec sp idx x w :
  0 <= idx < sp_size sp -> objs w (elem_addr (sp_data sp) idx) = Some x ->
  span_at sp idx w = (Returns x, w).
Proof.
  intros Hidx Hx. unfold span_at, object_at.
  rewrite bool_decide_eq_true_2 by lia. by rewrite Hx.
Qed.

Lemma span_at_out_of_range sp idx w :
  sp_size sp <= idx -> span_at sp idx w = (Undefined, w).
Proof.
  intros Hidx. unfold span_at. by rewrite bool_decide_eq_false_2 by lia.
Qed.

Lemma size_t_of_int_index i : 0 <= i <= 2 ^ 31 -> size_t_of_int i = i.
Proof. unfold size_t_of_int, size_t_wrap. intros H. apply Z.mod_small. lia. Qed.

(** [last_i] for a span whose last index fits an [int]. *)
Lemma last_index n : 1 <= n <= 2 ^ 31 -> int_of_size_t (size_t_sub n 1) = n - 1.
Proof.
  intros H. unfold int_of_size_t, int_wrap, size_t_sub, size_t_wrap.
  rewrite (Z.mod_small (n - 1)) by lia.
  rewrite Z.mod_small by lia. lia.
Qed.

(** The loop of [better_main] over the elements [i], [i + 1], ... holding
    the views [pre]. *)
Lemma print_loop sp pre : forall cs (i : nat) w,
  Z.of_nat i + Z.of_nat (length pre) <= sp_size sp -> sp_size sp <= 2 ^ 31 ->
  (forall (k : nat) x, pre !! k = Some x ->
     objs w (elem_addr (sp_data sp) (Z.of_nat (i + k))) = Some x) ->
  Forall2 (fun x c => sv_chars (chars w) x = Some c) pre cs ->
  for_upto (length pre) (Z.of_nat i)
    (fun i _ => a ← span_at sp (size_t_of_int i); prn_arg a;; cout_chr space)
    tt w =
    (Returns tt,
     with_cout (cout w +:+ spaced (map string_of_list_ascii cs)) w).
Proof.
  induction pre as [| x pre IH]; intros cs i w Hi Hn Hobjs Hcs.
  - apply Forall2_nil_inv_l in Hcs as ->. simpl.
    rewrite append_nil_r. by destruct w.
  - apply Forall2_cons_inv_l in Hcs as (c & cs' & Hc & Hcs & ->).
    simpl length in Hi. simpl for_upto.
    rewrite size_t_of_int_index by lia.
    rewrite (bind_returns _ _ _ tt
               (with_cout (cout w +:+ quoted (string_of_list_ascii c)
                             +:+ String space EmptyString) w)).
    + replace (Z.of_nat i + 1) with (Z.of_nat (S i)) by lia.
      rewrite (IH cs' (S i)); simpl; try done; try lia.
      * unfold with_cout. simpl. rewrite !append_assoc. reflexivity.
      * intros k y Hk. replace (S (i + k)) with (i + S k)%nat by lia.
        by apply Hobjs.
    + rewrite (bind_returns _ _ _ x w).
      * rewrite (bind_returns _ _ _ _ _ (prn_arg_spec x c w Hc)).
        unfold cout_chr, cout_str, modify. simpl. unfold with_cout. simpl.
        do 2 f_equal. by rewrite append_assoc.
      * apply span_at_spec; [lia |].
        specialize (Hobjs 0%nat x eq_refl). by rewrite Nat.add_0_r in Hobjs.
Qed.

(** [better_main] on a span of [1] to [2 ^ 31] valid views. *)
Lemma better_main_spec sp xs cs w :
  1 <= sp_size sp <= 2 ^ 31 -> span_holds w sp xs cs ->
  better_main sp w =
    (Returns 0,
     with_cout (cout w +:+ "DEBUG: "
                  +:+ args_line (map string_of_list_ascii cs)
                  +:+ String newline EmptyString) w).
Proof.
  intros Hn (Hsz & Hobjs & Hcs).
  destruct xs as [| x0 xs0] using rev_ind; [simpl in Hsz; lia | clear IHxs0].
  rename x0 into last, xs0 into pre.
  apply Forall2_app_inv_l in Hcs as (cs1 & cs2 & Hcs1 & Hcs2 & ->).
  apply Forall2_cons_inv_l in Hcs2 as (c & cs3 & Hc & Hnil & ->).
  apply Forall2_nil_inv_l in Hnil as ->.
  rewrite length_app in Hsz. simpl in Hsz.
  unfold better_main. rewrite last_index by done.
  set (w1 := with_cout (cout w +:+ "DEBUG: ") w).
  rewrite (bind_returns _ _ _ tt w1) by reflexivity.
  unfold for_int. rewrite Z.sub_0_r.
  replace (Z.to_nat (sp_size sp - 1)) with (length pre) by lia.
  rewrite (bind_returns _ _ _ _ _
             (print_loop sp pre cs1 0 w1 ltac:(simpl; lia) ltac:(lia)
                ltac:(intros k y Hk; apply Hobjs; by apply lookup_app_l_Some)
                Hcs1)).
  rewrite size_t_of_int_index by lia.
  set (w2 := with_cout (cout w1 +:+ spaced (map string_of_list_ascii cs1)) w1).
  assert (Hlast : objs w2 (elem_addr (sp_data sp) (sp_size sp - 1)) = Some last).
  { replace (sp_size sp - 1) with (Z.of_nat (length pre)) by lia.
    apply Hobjs. by apply list_lookup_middle. }
  rewrite (bind_returns _ _ _ last w2
             (span_at_spec sp (sp_size sp - 1) last w2 ltac:(lia) Hlast)).
  rewrite (bind_returns _ _ _ _ _ (prn_arg_spec last c w2 Hc)).
  unfold cout_chr, cout_str, modify, mbind, M_bind, mret, M_ret.
  simpl. unfold with_cout. simpl. do 2 f_equal.
  rewrite map_app. simpl map. rewrite args_line_snoc.
  rewrite !append_assoc. reflexivity.
Qed.

(** ** The whole program *)

Lemma views_denote m argv ss :
  Forall2 (cstr_at m) argv ss ->
  Forall2 (fun x c => sv_chars m x = Some c) (zip_with view_of argv ss) ss.
Proof.
  induction 1 as [| p s argv ss Hs _ IH]; simpl; constructor; [| done].
  by apply cstr_at_read.
Qed.

Lemma built_span_holds argc argv ss stk w :
  Z.of_nat (length argv) = argc -> Forall2 (cstr_at (chars w)) argv ss ->
  span_holds (built_world argc argv ss stk w)
    (span_of_vector {| v_data := stk; v_size := argc; v_capacity := argc |})
    (zip_with view_of argv ss) ss.
Proof.
  intros Hlen Hss. split; [| split]; simpl.
  - rewrite length_zip_with, <- (Forall2_length _ _ _ Hss). lia.
  - intros k x Hk.
    rewrite <- (Z.add_0_l (Z.of_nat k)). by apply store_views_lookup.
  - by apply views_denote.
Qed.

(** [main] on a well-formed argument array of at least one string: it
    returns 0 and has written the arguments, quoted and separated by
    spaces, after the prefix [DEBUG: ] on [std::cout]. *)
Lemma main_spec argc argv ss stk w :
  1 <= argc < INT_MAX -> Z.of_nat (length argv) = argc ->
  Forall2 (cstr_at (chars w)) argv ss ->
  main argc argv stk w =
    (Returns 0,
     with_cout (cout w +:+ "DEBUG: "
                  +:+ args_line (map string_of_list_ascii ss)
                  +:+ String newline EmptyString)
       (built_world argc argv ss stk w)).
Proof.
  intros Hargc Hlen Hss. unfold main.
  rewrite (bind_returns _ _ _ _ _ (build_args_spec argc argv ss stk w Hargc Hlen Hss)).
  rewrite (better_main_spec _ (zip_with view_of argv ss) ss).
  - reflexivity.
  - simpl. unfold INT_MAX in Hargc. lia.
  - by apply built_span_holds.
Qed.

(** ** Runs that raise no exception *)

Lemma ensures_bind {A B} (m : M A) (f : A -> M B) w Q R :
  ensures (m w) Q -> (forall a w', Q a w' -> ensures (f a w') R) ->
  ensures ((m ≫= f) w) R.
Proof.
  intros Hm Hf. unfold mbind, M_bind.
  destruct (m w) as [[a | e |] w']; simpl in *; [by apply Hf | done | done].
Qed.

Lemma ensures_not_throws {A} (r : outcome A * world) Q e :
  ensures r Q -> result r <> Throws e.
Proof. destruct r as [[a | e' |] w']; simpl; [discriminate | done | discriminate]. Qed.

Lemma for_upto_ensures {S} (body : Z -> S -> M S) (I : S -> Prop) n :
  forall i s w,
  (forall i s w, I s -> ensures (body i s w) (fun s' _ => I s')) ->
  I s -> ensures (for_upto n i body s w) (fun s' _ => I s').
Proof.
  induction n as [| n IH]; intros i s w Hbody Hs; simpl; [done |].
  eapply ensures_bind; [by apply Hbody |].
  intros s' w' Hs'. by apply IH.
Qed.

Lemma string_view_of_cstr_ensures p w :
  ensures (string_view_of_cstr p w) (fun _ _ => True).
Proof. unfold string_view_of_cstr. by destruct (strlen (chars w) p). Qed.

Lemma argv_at_ensures argv i w : ensures (argv_at argv i w) (fun _ _ => True).
Proof. unfold argv_at. by destruct (argv !! Z.to_nat i). Qed.

(** With room left, [emplace_back] allocates nothing and cannot throw. *)
Lemma emplace_argv_ensures argv i v w :
  v_size v < v_capacity v ->
  ensures (emplace_argv argv i v w)
    (fun v' _ => v_size v' = v_size v + 1 /\ v_capacity v' = v_capacity v).
Proof.
  intros Hroom. unfold emplace_argv.
  eapply ensures_bind; [apply argv_at_ensures |]. intros p w1 _.
  unfold vector_emplace_back. rewrite bool_decide_eq_true_2 by lia.
  eapply ensures_bind; [apply string_view_of_cstr_ensures |]. intros x w2 _.
  done.
Qed.

Lemma emplace_loop_ensures argv n : forall i v w,
  v_size v + Z.of_nat n <= v_capacity v ->
  ensures (for_upto n i (emplace_argv argv) v w) (fun _ _ => True).
Proof.
  induction n as [| n IH]; intros i v w Hroom; simpl; [done |].
  eapply ensures_bind; [apply emplace_argv_ensures; lia |].
  intros v' w' [Hsz Hcap]. apply IH. lia.
Qed.

Lemma span_at_ensures sp idx w : ensures (span_at sp idx w) (fun _ _ => True).
Proof.
  unfold span_at, object_at, undefined. case_bool_decide; [| done].
  by destruct (objs w (elem_addr (sp_data sp) idx)).
Qed.

Lemma prn_arg_ensures x w : ensures (prn_arg x w) (fun _ _ => True).
Proof.
  unfold prn_arg. eapply ensures_bind with (Q := fun _ _ => True); [done |].
  intros _ w1 _. eapply ensures_bind with (Q := fun _ _ => True).
  - unfold cout_sv. by destruct (sv_chars (chars w1) x).
  - done.
Qed.

(** [better_main] throws nothing, whatever span it is given. *)
Lemma better_main_ensures sp w : ensures (better_main sp w) (fun _ _ => True).
Proof.
  unfold better_main.
  eapply ensures_bind with (Q := fun _ _ => True); [done |]. intros _ w1 _.
  eapply ensures_bind with (Q := fun _ _ => True).
  - unfold for_int. apply (for_upto_ensures _ (fun _ => True)); [| done].
    intros i s w2 _.
    eapply ensures_bind; [apply span_at_ensures |]. intros x w3 _.
    eapply ensures_bind; [apply prn_arg_ensures |]. done.
  - intros _ w2 _.
    eapply ensures_bind; [apply span_at_ensures |]. intros x w3 _.
    eapply ensures_bind; [apply prn_arg_ensures |]. done.
Qed.

(** [main] throws nothing for any argument count from 0 to [INT_MAX],
    whatever [argv] holds. *)
Lemma main_ensures argc argv stk w :
  0 <= argc <= INT_MAX -> ensures (main argc argv stk w) (fun _ _ => True).
Proof.
  intros Hargc. unfold main.
  eapply ensures_bind with (Q := fun _ _ => True);
    [| intros; apply better_main_ensures].
  destruct (decide (argc = INT_MAX)) as [-> | Hmax]; [done |].
  rewrite build_args_unfold by lia.
  destruct (decide (argc = 0)) as [-> | Hne].
  - done.
  - rewrite (bind_returns _ _ _ _ _
               (reserve_fresh argc stk (arena_world argc stk w)
                  ltac:(lia) eq_refl)).
    unfold for_int. apply emplace_loop_ensures. simpl. lia.
Qed.

(** ** The empty span *)


(** Past [2 ^ 31] elements the last index no longer fits: it wraps to
    [INT_MIN]. *)
Lemma last_index_wide : int_of_size_t (size_t_sub (2 ^ 31 + 1) 1) = INT_MIN.
Proof. reflexivity. Qed.



(** ** Claims about the program *)

Lemma cstr_at_check m p s off :
  mem_offset m p = Some off ->
  bool_decide (NUL ∉ s) = true ->
  take (S (length s)) (drop off (mem_bytes m)) = s ++ [NUL] ->
  cstr_at m p s.
Proof.
  intros Hoff Hnul Htake. split; [| by exists off].
  by apply bool_decide_eq_true_1 in Hnul.
Qed.

Lemma demo_cstrs : Forall2 (cstr_at (chars demo_world)) demo_argv demo_args.
Proof.
  change demo_argv with [4096; 4101; 4107].
  apply Forall2_cons_2; [by apply (cstr_at_check _ _ _ 0%nat) |].
  apply Forall2_cons_2; [by apply (cstr_at_check _ _ _ 5%nat) |].
  apply Forall2_cons_2; [by apply (cstr_at_check _ _ _ 11%nat) |].
  apply Forall2_nil_2.
Qed.

Lemma solo_cstr :
  cstr_at (chars solo_world) 4096 (list_ascii_of_string "prog").
Proof. by apply (cstr_at_check _ _ _ 0%nat). Qed.

(** C2, as the code has it. Invoked with [prog hello world], the program
    returns 0 and writes to [std::cout] the prefix [DEBUG: ], then the
    three arguments, each between double quotes, separated by single
    spaces, then a newline. *)
Theorem three_arguments_output :
  forall (w : world) (p0 p1 p2 stk : Z),
    cstr_at (chars w) p0 (list_ascii_of_string "prog") ->
    cstr_at (chars w) p1 (list_ascii_of_string "hello") ->
    cstr_at (chars w) p2 (list_ascii_of_string "world") ->
    result (main 3 [p0; p1; p2] stk w) = Returns 0 /\
    cout (final (main 3 [p0; p1; p2] stk w)) =
      cout w +:+ "DEBUG: " +:+ quoted "prog" +:+ " " +:+ quoted "hello"
        +:+ " " +:+ quoted "world" +:+ String newline EmptyString.
Proof.
  intros w p0 p1 p2 stk H0 H1 H2.
  rewrite (main_spec 3 [p0; p1; p2]
             (map list_ascii_of_string ["prog"; "hello"; "world"]) stk w).
  - split; reflexivity.
  - unfold INT_MAX. lia.
  - reflexivity.
  - repeat (apply Forall2_cons_2; [done |]). apply Forall2_nil_2.
Qed.

Lemma three_arguments_output_witness :
  result (main 3 demo_argv 65536 demo_world) = Returns 0 /\
  cout (final (main 3 demo_argv 65536 demo_world)) =
    cout demo_world +:+ "DEBUG: " +:+ quoted "prog" +:+ " " +:+ quoted "hello"
      +:+ " " +:+ quoted "world" +:+ String newline EmptyString.
Proof.
  pose proof demo_cstrs as H.
  apply Forall2_cons_1 in H as [H0 H]. apply Forall2_cons_1 in H as [H1 H].
  apply Forall2_cons_1 in H as [H2 _].
  exact (three_arguments_output demo_world 4096 4101 4107 65536 H0 H1 H2).
Defined.

(** C2, as stated, fails: the output on [std::cout] is not the quoted
    argument list alone, it starts with [DEBUG: ]. *)
Lemma three_arguments_output_not_bare :
  ~ (cout (final (run_main ["prog"; "hello"; "world"])) =
       quoted "prog" +:+ " " +:+ quoted "hello" +:+ " " +:+ quoted "world"
         +:+ String newline EmptyString /\
     result (run_main ["prog"; "hello"; "world"]) = Returns 0).
Proof. intros [H _]. vm_compute in H. discriminate H. Qed.

(** C6, as the code has it. Invoked with the single argument [prog], the
    program returns 0 and writes to [std::cout] the prefix [DEBUG: ], the
    argument between double quotes and a newline: no space follows the
    argument. *)
Theorem single_argument_output :
  forall (w : world) (p0 stk : Z),
    cstr_at (chars w) p0 (list_ascii_of_string "prog") ->
    result (main 1 [p0] stk w) = Returns 0 /\
    cout (final (main 1 [p0] stk w)) =
      cout w +:+ "DEBUG: " +:+ quoted "prog" +:+ String newline EmptyString.
Proof.
  intros w p0 stk H0.
  rewrite (main_spec 1 [p0] [list_ascii_of_string "prog"] stk w).
  - split; reflexivity.
  - unfold INT_MAX. lia.
  - reflexivity.
  - apply Forall2_cons_2; [done |]. apply Forall2_nil_2.
Qed.

Lemma single_argument_output_witness :
  result (main 1 [4096] 65536 solo_world) = Returns 0 /\
  cout (final (main 1 [4096] 65536 solo_world)) =
    cout solo_world +:+ "DEBUG: " +:+ quoted "prog"
      +:+ String newline EmptyString.
Proof. exact (single_argument_output solo_world 4096 65536 solo_cstr). Defined.

(** C6, as stated, fails: the output on [std::cout] is not the quoted
    argument alone, it starts with [DEBUG: ]. *)
Lemma single_argument_output_not_bare :
  ~ (cout (final (run_main ["prog"])) =
       quoted "prog" +:+ String newline EmptyString /\
     result (run_main ["prog"]) = Returns 0).
Proof. intros [H _]. vm_compute in H. discriminate H. Qed.

(** C3. For every argument count [argc >= 1] for which [argc + 1] is an
    [int], that is every count below [INT_MAX] (at [INT_MAX] the sizing
    expression of [main] overflows and the program has no defined
    behaviour), and every array of [argc] C strings, the vector that
    [main] builds has [argc] elements, and element [i] is a view whose
    pointer is [argv[i]] itself, whose length is that of the string, and
    whose characters are the characters of the string, in the order of
    [argv]. *)
Theorem argument_sequence_views :
  forall (argc : Z) (argv : list Z) (ss : list (list ascii)) (stk : Z)
         (w : world),
    1 <= argc < INT_MAX -> Z.of_nat (length argv) = argc ->
    Forall2 (cstr_at (chars w)) argv ss ->
    exists (args : pmr_vector) (w' : world),
      build_args argc argv stk w = (Returns args, w') /\
      v_size args = argc /\ sp_size (span_of_vector args) = argc /\
      chars w' = chars w /\
      forall (i : nat) (p : Z) (s : list ascii),
        argv !! i = Some p -> ss !! i = Some s ->
        exists x : string_view,
          span_at (span_of_vector args) (Z.of_nat i) w' = (Returns x, w') /\
          sv_data x = p /\ sv_len x = Z.of_nat (length s) /\
          sv_chars (chars w') x = Some s.
Proof.
  intros argc argv ss stk w Hargc Hlen Hss.
  eexists _, _. split; [by apply (build_args_spec argc argv ss) |].
  do 3 (split; [done |]).
  intros i p s Hp Hs. exists (view_of p s).
  pose proof (built_span_holds argc argv ss stk w Hlen Hss) as (_ & Hobjs & _).
  split; [| split; [done | split; [done |]]].
  - apply span_at_spec.
    + simpl. apply lookup_lt_Some in Hp. lia.
    + apply Hobjs. rewrite lookup_zip_with, Hp. simpl. by rewrite Hs.
  - simpl. apply cstr_at_read.
    by apply (Forall2_lookup_lr _ _ _ _ _ _ Hss Hp Hs).
Qed.

Lemma argument_sequence_views_witness :
  exists (args : pmr_vector) (w' : world),
    build_args 3 demo_argv 65536 demo_world = (Returns args, w') /\
    v_size args = 3 /\ sp_size (span_of_vector args) = 3 /\
    chars w' = chars demo_world /\
    forall (i : nat) (p : Z) (s : list ascii),
      demo_argv !! i = Some p -> demo_args !! i = Some s ->
      exists x : string_view,
        span_at (span_of_vector args) (Z.of_nat i) w' = (Returns x, w') /\
        sv_data x = p /\ sv_len x = Z.of_nat (length s) /\
        sv_chars (chars w') x = Some s.
Proof.
  apply (argument_sequence_views 3 demo_argv demo_args 65536 demo_world).
  - unfold INT_MAX. lia.
  - reflexivity.
  - exact demo_cstrs.
Defined.

(** C9. For every argument count from 0 to [INT_MAX], the [argc] records
    that [args.reserve(argc)] asks for fit in the
    [(argc + 1) * sizeof(std::string_view)] bytes of the arena, and [main]
    never ends in [std::bad_alloc], whatever [argv] holds. *)
Theorem reservation_fits_arena :
  forall (argc : Z) (argv : list Z) (stk : Z) (w : world),
    0 <= argc <= INT_MAX ->
    size_t_mul (size_t_of_int argc) sizeof_string_view <= arena_capacity argc /\
    result (main argc argv stk w) <> Throws bad_alloc.
Proof.
  intros argc argv stk w Hargc. split.
  - rewrite size_t_of_int_nonneg, size_t_mul_small by done.
    pose proof (arena_capacity_fits argc Hargc). lia.
  - eapply ensures_not_throws. by apply main_ensures.
Qed.

Lemma reservation_fits_arena_witness :
  size_t_mul (size_t_of_int 3) sizeof_string_view <= arena_capacity 3 /\
  result (main 3 demo_argv 65536 demo_world) <> Throws bad_alloc.
Proof.
  apply (reservation_fits_arena 3 demo_argv 65536 demo_world).
  unfold INT_MAX. lia.
Defined.



(** * Further properties *)

(** ** The arena: outcome, accounting, exhaustion *)

Lemma arena_call_accounts op w :
  op_wf op -> is_size_t (remaining w) ->
  remaining (final (arena_call op w)) +
    match op, result (arena_call op w) with
    | Allocate bytes _, Returns _ => bytes
    | _, _ => 0
    end = remaining w.
Proof.
  intros Hop Hr. destruct op as [bytes al | p bytes al]; [| simpl; lia].
  destruct Hop as [[Hn _] _]. rewrite arena_call_allocate.
  case_bool_decide as H.
  - rewrite do_allocate_fails by done. unfold result, final, remaining. simpl. lia.
  - unfold result, final at 1. simpl.
    rewrite remaining_after_allocate; [lia | done | lia].
Qed.

Lemma arena_run_conserves b cap ops : forall w,
  is_size_t cap -> Forall op_wf ops -> arena_inv b cap w ->
  remaining (snd (arena_run ops w)) + granted (fst (arena_run ops w))
    = remaining w.
Proof.
  induction ops as [| op ops IH]; intros w Hcap Hops Hinv; [simpl; lia |].
  apply Forall_cons_1 in Hops as [Hop Hops].
  destruct (arena_call_step b cap op w Hcap Hop Hinv) as [Hinv' _].
  specialize (IH _ Hcap Hops Hinv').
  assert (Hr : is_size_t (remaining w)).
  { destruct Hinv as (_ & _ & Hr). unfold is_size_t in *. lia. }
  pose proof (arena_call_accounts op w Hop Hr) as Hstep.
  cbn [arena_run fst snd granted ev_op ev_result]. destruct op; lia.
Qed.

Lemma arena_run_refuses b cap ops n : forall w,
  is_size_t cap -> Forall op_wf ops -> arena_inv b cap w ->
  remaining w < n ->
  Forall (ev_refused n) (fst (arena_run ops w)).
Proof.
  induction ops as [| op ops IH]; intros w Hcap Hops Hinv Hlt; [constructor |].
  apply Forall_cons_1 in Hops as [Hop Hops].
  destruct (arena_call_step b cap op w Hcap Hop Hinv) as [Hinv' Hle].
  simpl. constructor; [| apply IH; try done; lia].
  unfold ev_refused. simpl. destruct op as [m al | p m al]; [| done].
  intros Hm. rewrite arena_call_allocate.
  by rewrite bool_decide_eq_true_2 by lia.
Qed.

(** X1. [allocate] succeeds exactly when the request fits in what remains.
    When it succeeds it returns [buf] and touches neither stream, nor the
    character memory, nor any object; when it fails it throws
    [std::bad_alloc] after one line on [std::cerr] that gives the request
    and the remaining capacity in decimal, and changes nothing else. *)
Theorem allocate_outcome :
  forall (w : world) (bytes alignment : Z),
    (bytes <= remaining w ->
       result (do_allocate bytes alignment w) = Returns (buf (pmr_alloc w)) /\
       cerr (final (do_allocate bytes alignment w)) = cerr w) /\
    (bytes > remaining w ->
       result (do_allocate bytes alignment w) = Throws bad_alloc /\
       cerr (final (do_allocate bytes alignment w)) =
         cerr w +:+ diagnostic_line bytes (remaining w)) /\
    cout (final (do_allocate bytes alignment w)) = cout w /\
    chars (final (do_allocate bytes alignment w)) = chars w /\
    objs (final (do_allocate bytes alignment w)) = objs w /\
    max_buf_size (pmr_alloc (final (do_allocate bytes alignment w)))
      = max_buf_size (pmr_alloc w).
Proof.
  intros w bytes alignment.
  destruct (decide (bytes > remaining w)) as [Hgt | Hle].
  - rewrite do_allocate_fails by done. split; [lia |]. split; [| done].
    intros _. split; [done |]. simpl. unfold diagnostic_line.
    by rewrite !append_assoc.
  - rewrite do_allocate_succeeds by lia. split; [done |]. split; [lia | done].
Qed.

Lemma allocate_outcome_witness :
  result (do_allocate 32 8 arena32) = Returns 65536 /\
  result (do_allocate 33 8 arena32) = Throws bad_alloc /\
  cerr (final (do_allocate 33 8 arena32)) =
    "requested bytes: 33, remaining bytes capacity: 32"
      +:+ String newline EmptyString.
Proof.
  destruct (allocate_outcome arena32 32 8) as (Hok & _).
  destruct (allocate_outcome arena32 33 8) as (_ & Hfail & _).
  destruct Hok as [Hok _]; [vm_compute; discriminate |].
  destruct Hfail as [Hthrows Hline]; [reflexivity |].
  split; [exact Hok |]. split; [exact Hthrows | exact Hline].
Defined.

(** X2. The arena keeps exact accounts: along every sequence of calls on a
    fresh arena, what remains plus the bytes of the allocations that
    succeeded is the capacity the arena was constructed with, and
    [max_buf_size] still records that capacity. *)
Theorem arena_accounts_balance :
  forall (w : world) (b cap : Z) (ops : list arena_op),
    is_size_t cap -> Forall op_wf ops ->
    remaining (snd (arena_run ops (fresh_arena b cap w))) +
      granted (fst (arena_run ops (fresh_arena b cap w))) = cap /\
    max_buf_size (pmr_alloc (snd (arena_run ops (fresh_arena b cap w)))) = cap /\
    buf (pmr_alloc (snd (arena_run ops (fresh_arena b cap w)))) = b.
Proof.
  intros w b cap ops Hcap Hops.
  assert (Hinv : arena_inv b cap (fresh_arena b cap w)).
  { apply fresh_arena_inv. unfold is_size_t in Hcap. lia. }
  split.
  - by rewrite (arena_run_conserves b cap).
  - destruct (arena_run_inv b cap ops _ Hcap Hops Hinv) as [(Hb & Hm & _) _].
    done.
Qed.

Lemma arena_accounts_balance_witness :
  remaining (snd (arena_run [Allocate 16 8; Allocate 24 8;
                             Deallocate 65536 16 8; Allocate 8 8]
                    (fresh_arena 65536 32 arena32))) = 8 /\
  granted (fst (arena_run [Allocate 16 8; Allocate 24 8;
                           Deallocate 65536 16 8; Allocate 8 8]
                  (fresh_arena 65536 32 arena32))) = 24.
Proof.
  destruct (arena_accounts_balance arena32 65536 32
              [Allocate 16 8; Allocate 24 8; Deallocate 65536 16 8;
               Allocate 8 8]) as (Hsum & _).
  - apply is_size_t_small. lia.
  - repeat constructor; simpl; unfold SIZE_MAX; lia.
  - split; [reflexivity |].
    change (remaining (snd (arena_run [Allocate 16 8; Allocate 24 8;
                                       Deallocate 65536 16 8; Allocate 8 8]
                              (fresh_arena 65536 32 arena32)))) with 8 in Hsum.
    lia.
Defined.

(** X3. Refusal is permanent: once an arena has less than [n] bytes left,
    every later allocation of [n] bytes or more throws [std::bad_alloc],
    whatever allocations and deallocations come in between. *)
Theorem refusal_is_permanent :
  forall (w : world) (b cap n : Z) (ops : list arena_op),
    is_size_t cap -> Forall op_wf ops -> arena_inv b cap w ->
    remaining w < n ->
    Forall (ev_refused n) (fst (arena_run ops w)).
Proof.
  intros w b cap n ops Hcap Hops Hinv Hlt.
  by apply (arena_run_refuses b cap).
Qed.

Lemma refusal_is_permanent_witness :
  Forall (ev_refused 33)
    (fst (arena_run [Allocate 40 8; Allocate 16 8; Deallocate 65536 16 8;
                     Allocate 33 8] arena32)).
Proof.
  apply (refusal_is_permanent arena32 65536 32 33).
  - apply is_size_t_small. lia.
  - repeat constructor; simpl; unfold SIZE_MAX; lia.
  - unfold arena_inv. vm_compute. repeat split; discriminate.
  - vm_compute. reflexivity.
Defined.

(** ** The consumer: what it prints and what it leaves alone *)

Lemma cout_extends_refl w : cout_extends w w.
Proof. repeat split. exists EmptyString. by rewrite append_nil_r. Qed.

Lemma cout_extends_trans w1 w2 w3 :
  cout_extends w1 w2 -> cout_extends w2 w3 -> cout_extends w1 w3.
Proof.
  intros (He & Hc & Ho & Hp & s & Hs) (He' & Hc' & Ho' & Hp' & s' & Hs').
  repeat split; try congruence.
  exists (s +:+ s'). by rewrite Hs', Hs, append_assoc.
Qed.

Lemma frame_bind {A B} (m : M A) (f : A -> M B) w :
  cout_extends w (final (m w)) ->
  (forall a w1, cout_extends w1 (final (f a w1))) ->
  cout_extends w (final ((m ≫= f) w)).
Proof.
  intros Hm Hf. unfold mbind, M_bind.
  destruct (m w) as [[a | e |] w1]; simpl in *; [| done | done].
  eapply cout_extends_trans; [exact Hm | apply Hf].
Qed.

Lemma frame_cout_str s w : cout_extends w (final (cout_str s w)).
Proof. repeat split. by exists s. Qed.

Lemma frame_span_at sp idx w : cout_extends w (final (span_at sp idx w)).
Proof.
  unfold span_at, object_at, undefined.
  case_bool_decide; [| apply cout_extends_refl].
  destruct (objs w (elem_addr (sp_data sp) idx)); apply cout_extends_refl.
Qed.

Lemma frame_prn_arg x w : cout_extends w (final (prn_arg x w)).
Proof.
  unfold prn_arg. apply frame_bind; [apply frame_cout_str |]. intros _ w1.
  apply frame_bind; [| intros _ w2; apply frame_cout_str].
  unfold cout_sv. destruct (sv_chars (chars w1) x);
    [apply frame_cout_str | apply cout_extends_refl].
Qed.

Lemma frame_for_upto {S} (body : Z -> S -> M S) n : forall i s w,
  (forall i s w, cout_extends w (final (body i s w))) ->
  cout_extends w (final (for_upto n i body s w)).
Proof.
  induction n as [| n IH]; intros i s w Hbody; [apply cout_extends_refl |].
  simpl. apply frame_bind; [apply Hbody |]. intros s' w1. by apply IH.
Qed.

Lemma better_main_frame sp w :
  cout_extends (with_cout (cout w +:+ "DEBUG: ") w) (final (better_main sp w)).
Proof.
  unfold better_main.
  rewrite (bind_returns _ _ _ tt (with_cout (cout w +:+ "DEBUG: ") w))
    by reflexivity.
  apply frame_bind.
  - unfold for_int. apply frame_for_upto. intros i s w1.
    apply frame_bind; [apply frame_span_at |]. intros x w2.
    apply frame_bind; [apply frame_prn_arg |]. intros _ w3.
    apply frame_cout_str.
  - intros _ w1. apply frame_bind; [apply frame_span_at |]. intros x w2.
    apply frame_bind; [apply frame_prn_arg |]. intros _ w3.
    apply frame_bind; [apply frame_cout_str |]. intros _ w4.
    apply cout_extends_refl.
Qed.

Lemma better_main_returns_zero sp w : returns_zero (better_main sp w).
Proof.
  unfold returns_zero, better_main.
  eapply ensures_bind with (Q := fun _ _ => True); [done |]. intros _ w1 _.
  eapply ensures_bind with (Q := fun _ _ => True).
  - unfold for_int. apply (for_upto_ensures _ (fun _ => True)); [| done].
    intros i s w2 _.
    eapply ensures_bind; [apply span_at_ensures |]. intros x w3 _.
    eapply ensures_bind; [apply prn_arg_ensures |]. done.
  - intros _ w2 _.
    eapply ensures_bind; [apply span_at_ensures |]. intros x w3 _.
    eapply ensures_bind; [apply prn_arg_ensures |]. intros _ w4 _.
    eapply ensures_bind with (Q := fun _ _ => True); done.
Qed.

(** X4. On a span of 1 to [2 ^ 31] constructed views, [better_main]
    returns 0 and appends to [std::cout] the prefix [DEBUG: ], then every
    element in order between double quotes, a single space between two
    elements and none after the last, then a newline. *)
Theorem better_main_prints_span :
  forall (sp : span) (xs : list string_view) (cs : list (list ascii))
         (w : world),
    1 <= sp_size sp <= 2 ^ 31 -> span_holds w sp xs cs ->
    result (better_main sp w) = Returns 0 /\
    cout (final (better_main sp w)) =
      cout w +:+ "DEBUG: " +:+ args_line (map string_of_list_ascii cs)
        +:+ String newline EmptyString.
Proof.
  intros sp xs cs w Hn Hholds.
  by rewrite (better_main_spec sp xs cs w Hn Hholds).
Qed.

Lemma better_main_prints_span_witness :
  result (better_main {| sp_data := 65536; sp_size := 2 |} wide_world)
    = Returns 0 /\
  cout (final (better_main {| sp_data := 65536; sp_size := 2 |} wide_world))
    = "DEBUG: " +:+ quoted EmptyString +:+ " " +:+ quoted EmptyString
        +:+ String newline EmptyString.
Proof.
  apply (better_main_prints_span {| sp_data := 65536; sp_size := 2 |}
           [{| sv_data := 4096; sv_len := 0 |};
            {| sv_data := 4096; sv_len := 0 |}] [[]; []] wide_world).
  - simpl. lia.
  - split; [reflexivity |]. split.
    + intros [| [| k]] x Hk; simpl in Hk; [by injection Hk as <- ..| done].
    + repeat (apply Forall2_cons_2; [reflexivity |]). apply Forall2_nil_2.
Defined.

(** X5. Whatever span it is given and however it ends, [better_main]
    throws no exception, returns nothing but 0, and changes nothing but
    [std::cout]: [std::cerr], the argument characters, the views and the
    arena stay as they were, and the text already on [std::cout] stays,
    followed by [DEBUG: ] and what is printed after it. *)
Theorem better_main_only_appends_to_cout :
  forall (sp : span) (w : world),
    returns_zero (better_main sp w) /\
    cerr (final (better_main sp w)) = cerr w /\
    chars (final (better_main sp w)) = chars w /\
    objs (final (better_main sp w)) = objs w /\
    pmr_alloc (final (better_main sp w)) = pmr_alloc w /\
    exists s, cout (final (better_main sp w)) = cout w +:+ "DEBUG: " +:+ s.
Proof.
  intros sp w. split; [apply better_main_returns_zero |].
  destruct (better_main_frame sp w) as (He & Hc & Ho & Hp & s & Hs).
  repeat split; try done.
  exists s. rewrite Hs. simpl. by rewrite append_assoc.
Qed.

(** X6. On every span of more than [2 ^ 31] and at most [2 ^ 32] elements
    the index of the last element wraps to a negative [int]: the loop is
    skipped and the final access is out of bounds, in any world. *)
Theorem better_main_index_wraps :
  forall (sp : span) (w : world),
    2 ^ 31 < sp_size sp <= 2 ^ 32 ->
    result (better_main sp w) = Undefined /\
    cout (final (better_main sp w)) = cout w +:+ "DEBUG: ".
Proof.
  intros sp w Hn. unfold better_main.
  assert (Hlast : int_of_size_t (size_t_sub (sp_size sp) 1)
                  = sp_size sp - 1 - 2 ^ 32).
  { unfold int_of_size_t, int_wrap, size_t_sub, size_t_wrap.
    rewrite (Z.mod_small (sp_size sp - 1)) by lia.
    replace (sp_size sp - 1 + 2 ^ 31)
      with (sp_size sp - 1 - 2 ^ 31 + 1 * 2 ^ 32) by lia.
    rewrite Z.mod_add by lia. rewrite Z.mod_small by lia. lia. }
  rewrite Hlast.
  set (w1 := with_cout (cout w +:+ "DEBUG: ") w).
  rewrite (bind_returns _ _ _ tt w1) by reflexivity.
  unfold for_int.
  replace (Z.to_nat (sp_size sp - 1 - 2 ^ 32 - 0)) with 0%nat by lia.
  rewrite (bind_returns _ _ _ tt w1) by reflexivity.
  rewrite (bind_undefined _ _ w1 w1); [done |].
  apply span_at_out_of_range.
  unfold size_t_of_int, size_t_wrap.
  replace (sp_size sp - 1 - 2 ^ 32)
    with (sp_size sp - 1 - 2 ^ 32 + 2 ^ 64 + (-1) * 2 ^ 64) by lia.
  rewrite Z.mod_add by lia. rewrite Z.mod_small by lia. lia.
Qed.

Lemma better_main_index_wraps_witness :
  result (better_main wide_span wide_world) = Undefined /\
  cout (final (better_main wide_span wide_world)) = "DEBUG: ".
Proof.
  apply (better_main_index_wraps wide_span wide_world). simpl. lia.
Defined.

(** ** The entry point: streams, arena and objects after the run *)

Lemma store_views_outside base xs : forall i o a,
  (forall j, i <= j < i + Z.of_nat (length xs) -> a <> elem_addr base j) ->
  store_views base i xs o a = o a.
Proof.
  induction xs as [| x xs IH]; intros i o a Ha; simpl; [done |].
  simpl length in Ha.
  rewrite IH by (intros j Hj; apply Ha; lia).
  apply fn_lookup_insert_ne. intros E. apply (Ha i); [lia | done].
Qed.

Lemma build_args_ensures argc argv stk w :
  0 <= argc <= INT_MAX ->
  ensures (build_args argc argv stk w) (fun _ _ => True).
Proof.
  intros Hargc.
  destruct (decide (argc = INT_MAX)) as [-> | Hmax]; [done |].
  rewrite build_args_unfold by lia.
  destruct (decide (argc = 0)) as [-> | Hne]; [done |].
  rewrite (bind_returns _ _ _ _ _
             (reserve_fresh argc stk (arena_world argc stk w)
                ltac:(lia) eq_refl)).
  unfold for_int. apply emplace_loop_ensures. simpl. lia.
Qed.

(** X7. For every well-formed invocation, [argc >= 1] strings with
    [argc] below [INT_MAX] so that [argc + 1] is an [int], [main]
    returns 0, appends to [std::cout] the prefix [DEBUG: ] and the quoted
    arguments separated by single spaces and ended by a newline, and
    appends to [std::cerr] the one line that gives [argc] and the size of
    a view, and nothing else. *)
Theorem main_end_to_end :
  forall (argc : Z) (argv : list Z) (ss : list (list ascii)) (stk : Z)
         (w : world),
    1 <= argc < INT_MAX -> Z.of_nat (length argv) = argc ->
    Forall2 (cstr_at (chars w)) argv ss ->
    result (main argc argv stk w) = Returns 0 /\
    cout (final (main argc argv stk w)) =
      cout w +:+ "DEBUG: " +:+ args_line (map string_of_list_ascii ss)
        +:+ String newline EmptyString /\
    cerr (final (main argc argv stk w)) =
      cerr w +:+ "DEBUG: argc: " +:+ pretty argc
        +:+ ", sizeof(std::string_view): 16" +:+ String newline EmptyString.
Proof.
  intros argc argv ss stk w Hargc Hlen Hss.
  by rewrite (main_spec argc argv ss stk w Hargc Hlen Hss).
Qed.

Lemma main_end_to_end_witness :
  result (main 3 demo_argv 65536 demo_world) = Returns 0 /\
  cout (final (main 3 demo_argv 65536 demo_world)) =
    cout demo_world +:+ "DEBUG: "
      +:+ args_line (map string_of_list_ascii demo_args)
      +:+ String newline EmptyString /\
  cerr (final (main 3 demo_argv 65536 demo_world)) =
    cerr demo_world +:+ "DEBUG: argc: " +:+ pretty 3
      +:+ ", sizeof(std::string_view): 16" +:+ String newline EmptyString.
Proof.
  apply (main_end_to_end 3 demo_argv demo_args 65536 demo_world).
  - unfold INT_MAX. lia.
  - reflexivity.
  - exact demo_cstrs.
Defined.

(** X8. For every well-formed invocation with [argc] below [INT_MAX], the
    vector that [main] builds starts at the stack buffer and is exactly
    full, with [argc] elements in storage for [argc]; the arena was
    constructed over [16 * (argc + 1)] bytes and ends the run with one
    record, 16 bytes, never handed out. *)
Theorem main_arena_after_run :
  forall (argc : Z) (argv : list Z) (ss : list (list ascii)) (stk : Z)
         (w : world),
    1 <= argc < INT_MAX -> Z.of_nat (length argv) = argc ->
    Forall2 (cstr_at (chars w)) argv ss ->
    result (build_args argc argv stk w) =
      Returns {| v_data := stk; v_size := argc; v_capacity := argc |} /\
    pmr_alloc (final (main argc argv stk w)) =
      {| buf := stk; buf_size := 16; max_buf_size := 16 * (argc + 1) |}.
Proof.
  intros argc argv ss stk w Hargc Hlen Hss.
  rewrite (main_spec argc argv ss stk w ltac:(lia) Hlen Hss).
  rewrite (build_args_spec argc argv ss stk w ltac:(lia) Hlen Hss).
  split; [done |]. simpl.
  rewrite arena_capacity_val by lia. f_equal. lia.
Qed.

Lemma main_arena_after_run_witness :
  result (build_args 3 demo_argv 65536 demo_world) =
    Returns {| v_data := 65536; v_size := 3; v_capacity := 3 |} /\
  pmr_alloc (final (main 3 demo_argv 65536 demo_world)) =
    {| buf := 65536; buf_size := 16; max_buf_size := 16 * (3 + 1) |}.
Proof.
  apply (main_arena_after_run 3 demo_argv demo_args 65536 demo_world).
  - unfold INT_MAX. lia.
  - reflexivity.
  - exact demo_cstrs.
Defined.

(** X9. For every well-formed invocation with [argc] below [INT_MAX],
    [main] leaves the argument
    characters as they were and constructs objects only in the records
    [stk + 16 * i], [i < argc], of the stack buffer, each of which lies
    within the bytes the arena was constructed over; every other address
    holds what it held before. *)
Theorem main_writes_only_its_buffer :
  forall (argc : Z) (argv : list Z) (ss : list (list ascii)) (stk : Z)
         (w : world),
    1 <= argc < INT_MAX -> Z.of_nat (length argv) = argc ->
    Forall2 (cstr_at (chars w)) argv ss ->
    chars (final (main argc argv stk w)) = chars w /\
    (forall a : Z,
       (forall i, 0 <= i < argc -> a <> stk + 16 * i) ->
       objs (final (main argc argv stk w)) a = objs w a) /\
    (forall i, 0 <= i < argc ->
       stk <= stk + 16 * i /\
       stk + 16 * i + 16 <=
         stk + max_buf_size (pmr_alloc (final (main argc argv stk w)))).
Proof.
  intros argc argv ss stk w Hargc Hlen Hss.
  rewrite (main_spec argc argv ss stk w Hargc Hlen Hss). simpl.
  split; [done |]. split.
  - intros a Ha. apply store_views_outside.
    rewrite length_zip_with, <- (Forall2_length _ _ _ Hss).
    intros j Hj E. apply (Ha j); [lia |].
    rewrite E. unfold elem_addr, sizeof_string_view. lia.
  - intros i Hi. pose proof (arena_capacity_fits argc ltac:(lia)). lia.
Qed.

Lemma main_writes_only_its_buffer_witness :
  chars (final (main 3 demo_argv 65536 demo_world)) = chars demo_world /\
  objs (final (main 3 demo_argv 65536 demo_world)) 65584 = None.
Proof.
  destruct (main_writes_only_its_buffer 3 demo_argv demo_args 65536 demo_world)
    as (Hchars & Hobjs & _).
  - unfold INT_MAX. lia.
  - reflexivity.
  - exact demo_cstrs.
  - split; [exact Hchars |]. apply Hobjs. intros i Hi. lia.
Defined.

(** X10. For every argument count from 0 to [INT_MAX] and whatever [argv]
    holds, [main] throws no exception of any kind, and when it returns it
    returns 0. *)
Theorem main_returns_zero_or_is_undefined :
  forall (argc : Z) (argv : list Z) (stk : Z) (w : world),
    0 <= argc <= INT_MAX ->
    returns_zero (main argc argv stk w) /\
    forall e : exn, result (main argc argv stk w) <> Throws e.
Proof.
  intros argc argv stk w Hargc.
  assert (H : returns_zero (main argc argv stk w)).
  { unfold returns_zero, main.
    eapply ensures_bind; [by apply build_args_ensures |].
    intros args w' _. apply better_main_returns_zero. }
  split; [exact H |]. intros e. by eapply ensures_not_throws.
Qed.

Lemma main_returns_zero_or_is_undefined_witness :
  returns_zero (main 2 [4096] 65536 solo_world) /\
  forall e : exn, result (main 2 [4096] 65536 solo_world) <> Throws e.
Proof.
  apply (main_returns_zero_or_is_undefined 2 [4096] 65536 solo_world).
  unfold INT_MAX. lia.
Defined.
